(** * DM21cm: the evolution driver and the grid interpolator

    A shallow embedding of [dm21cm/evolve.py] and
    [dm21cm/interpolators_jax.py].

    Numbers.  The Python code computes on IEEE doubles.  Finite values are
    modelled by exact rationals ([Q], compared with [==]): rounding and
    overflow are idealised away.  What is kept of IEEE arithmetic is the
    one place where it changes the shape of a result: a division whose
    divisor is zero yields an infinity or a NaN, and every sum or product
    with such a value is again an infinity or a NaN.  That is the
    constructor [NonFinite] of [fval] below.

    Exceptions raised by Python are the constructor [Raise] of [outcome]. *)

From Stdlib Require Import String.
From Stdlib Require Import List Sorted Arith ZArith QArith Qminmax Lia Lqa Bool.
From Stdlib Require Import Setoid Morphisms RelationClasses.
Import ListNotations.

Open Scope Q_scope.

(** ** Numbers, non-finite values and exceptions *)

Definition Qltb (x y : Q) : bool := negb (Qle_bool y x).

(** [geom f k] is [f] to the power [k]. *)
Fixpoint geom (f : Q) (k : nat) : Q :=
  match k with
  | O => 1
  | S k' => geom f k' * f
  end.

(** A value that is either made of finite numbers or made of infinities and
    NaNs only. *)
Inductive fval (A : Type) : Type :=
| Finite (a : A)
| NonFinite.
Arguments Finite {A} a.
Arguments NonFinite {A}.

(** [a / b] on doubles: an infinity or a NaN when [b] is zero. *)
Definition fdiv (a b : Q) : fval Q :=
  if Qeq_bool b 0 then NonFinite else Finite (a / b).

Inductive exn : Type :=
| OutOfBounds (axis : string)   (* ValueError('<axis> out of bounds.') *)
| ShapeError                    (* operands of different shapes, or the
                                   minimum of an empty array *)
| IndexError
| TypeError
| ZeroDivisionError.

Inductive outcome (A : Type) : Type :=
| Ret (a : A)
| Raise (e : exn).
Arguments Ret {A} a.
Arguments Raise {A} e.

Definition bind {A B : Type} (m : outcome A) (k : A -> outcome B) : outcome B :=
  match m with
  | Ret a => k a
  | Raise e => Raise e
  end.

Notation "x <- m ;; k" := (bind m (fun x => k))
  (at level 61, m at next level, right associativity).
Notation "' p <- m ;; k" := (bind m (fun x => let p := x in k))
  (at level 61, p pattern, m at next level, right associativity).

Fixpoint mapM {A B : Type} (f : A -> outcome B) (l : list A) : outcome (list B) :=
  match l with
  | [] => Ret []
  | a :: l' => b <- f a ;; bs <- mapM f l' ;; Ret (b :: bs)
  end.

(** ** Arrays *)

(** [range(a, b)] *)
Definition py_range (a b : nat) : list nat := seq a (b - a).

(** [np.searchsorted(a, v)] (side='left') on a sorted array: the index of
    the first element that is not below [v]. *)
Fixpoint searchsorted_left (a : list Q) (v : Q) : nat :=
  match a with
  | [] => O
  | y :: a' => if Qltb y v then S (searchsorted_left a' v) else O
  end.

(** [jnp.searchsorted(a, v, side='right')] on a sorted array: the index of
    the first element that is above [v]. *)
Fixpoint searchsorted_right (a : list Q) (v : Q) : nat :=
  match a with
  | [] => O
  | y :: a' => if Qle_bool y v then S (searchsorted_right a' v) else O
  end.

Fixpoint mapi_from {A B : Type} (i : nat) (f : nat -> A -> B) (l : list A) : list B :=
  match l with
  | [] => []
  | a :: l' => f i a :: mapi_from (S i) f l'
  end.

(** [a[lo:hi] *= c]; the slice bounds are clamped to the array, as Python
    does. *)
Definition mul_slice (lo hi : nat) (c : Q) (a : list Q) : list Q :=
  mapi_from 0 (fun i x => if (lo <=? i)%nat && (i <? hi)%nat then x * c else x) a.

Fixpoint zip_with {A B C : Type} (f : A -> B -> C) (l : list A) (m : list B) : list C :=
  match l, m with
  | a :: l', b :: m' => f a b :: zip_with f l' m'
  | _, _ => []
  end.

(** [a + b] on two 1-D arrays over one abscissa. *)
Definition arr_add (a b : list Q) : outcome (list Q) :=
  if (length a =? length b)%nat then Ret (zip_with Qplus a b) else Raise ShapeError.

(** [np.dot(a, b)] on two 1-D arrays. *)
Definition dot (a b : list Q) : outcome Q :=
  if (length a =? length b)%nat
  then Ret (fold_left Qplus (zip_with Qmult a b) 0)
  else Raise ShapeError.

(** [a[i] = v] *)
Definition setitem (a : list Q) (i : nat) (v : Q) : outcome (list Q) :=
  if (i <? length a)%nat then Ret (firstn i a ++ v :: skipn (S i) a)
  else Raise IndexError.

(** [x[i]] on a JAX array: a negative index counts from the end, and an
    index out of range is clamped to the array (JAX does not raise inside
    a jitted function). *)
Definition clamp_index (n : nat) (i : Z) : nat :=
  let i' := if (i <? 0)%Z then (i + Z.of_nat n)%Z else i in
  Z.to_nat (Z.max 0 (Z.min i' (Z.of_nat n - 1))).

Definition getitem {V : Type} (l : list V) (i : Z) : outcome V :=
  match l with
  | [] => Raise IndexError
  | v0 :: _ => Ret (nth (clamp_index (length l) i) l v0)
  end.

(** [jnp.min(a)], [jnp.max(a)] *)
Definition amin (a : list Q) : outcome Q :=
  match a with
  | [] => Raise ShapeError
  | x :: a' => Ret (fold_left Qmin a' x)
  end.

Definition amax (a : list Q) : outcome Q :=
  match a with
  | [] => Raise ShapeError
  | x :: a' => Ret (fold_left Qmax a' x)
  end.

(** [jnp.clip(x, lo, hi)] is [minimum(maximum(x, lo), hi)]. *)
Definition clip (x lo hi : Q) : Q := Qmin (Qmax x lo) hi.

(** [jnp.stack([a, b], axis=-1)] on two 1-D arrays. *)
Definition stack (a b : list Q) : outcome (list (Q * Q)) :=
  if (length a =? length b)%nat then Ret (combine a b) else Raise ShapeError.

(** [jnp.array_split(l, n)]: the first [len mod n] parts have
    [len / n + 1] elements and the others [len / n]; no part can be made
    when [n] is zero. *)
Fixpoint take_sizes {A : Type} (sizes : list nat) (l : list A) : list (list A) :=
  match sizes with
  | [] => []
  | k :: sizes' => firstn k l :: take_sizes sizes' (skipn k l)
  end.

Definition split_sizes (len n : nat) : list nat :=
  repeat (S (len / n))%nat (len mod n)%nat ++ repeat (len / n)%nat (n - len mod n)%nat.

Definition array_split {A : Type} (l : list A) (n : nat) : outcome (list (list A)) :=
  match n with
  | O => Raise ZeroDivisionError
  | S _ => Ret (take_sizes (split_sizes (length l) n) l)
  end.

(** [int(jnp.ceil(len / size))] for a positive [size]. *)
Definition ceil_div (len : nat) (size : positive) : nat :=
  ((len + Pos.to_nat size - 1) / Pos.to_nat size)%nat.

(** ** N-dimensional arrays of numbers

    A NumPy array of rank [k+1] is a list of arrays of rank [k]; the
    operations the interpolators use act entry by entry. *)

Class Cell (V : Type) : Type := {
  ceq : V -> V -> Prop;      (* same shape, equal entries *)
  cshape : V -> V -> Prop;   (* same shape *)
  cadd : V -> V -> V;        (* a + b *)
  cmul : V -> Q -> V;        (* a * w, [w] a number *)
  czeros : V -> V            (* zeros_like *)
}.

#[export] Instance cell_Q : Cell Q := {
  ceq := Qeq;
  cshape := fun _ _ => True;
  cadd := Qplus;
  cmul := Qmult;
  czeros := fun _ => 0
}.

#[export] Instance cell_list (V : Type) `{Cell V} : Cell (list V) := {
  ceq := Forall2 ceq;
  cshape := Forall2 cshape;
  cadd := zip_with cadd;
  cmul := fun l w => map (fun v => cmul v w) l;
  czeros := map czeros
}.

(** The laws of these operations that the proofs use. *)
Class CellLaws (V : Type) `{Cell V} : Prop := {
  ceq_refl : forall a, ceq a a;
  ceq_sym : forall a b, ceq a b -> ceq b a;
  ceq_trans : forall a b c, ceq a b -> ceq b c -> ceq a c;
  cshape_refl : forall a, cshape a a;
  cshape_sym : forall a b, cshape a b -> cshape b a;
  cshape_trans : forall a b c, cshape a b -> cshape b c -> cshape a c;
  ceq_cshape : forall a b, ceq a b -> cshape a b;
  cadd_proper : forall a a' b b',
      ceq a a' -> ceq b b' -> ceq (cadd a b) (cadd a' b');
  cmul_proper : forall a a' w w',
      ceq a a' -> w == w' -> ceq (cmul a w) (cmul a' w');
  cmul_shape : forall a w, cshape (cmul a w) a;
  cmul_one : forall a w, w == 1 -> ceq (cmul a w) a;
  cadd_zero_r : forall a b w, cshape a b -> w == 0 -> ceq (cadd a (cmul b w)) a
}.

(** Equality of results up to the numeric equality of their entries. *)
Definition feq {V : Type} (R : V -> V -> Prop) (a b : fval V) : Prop :=
  match a, b with
  | Finite x, Finite y => R x y
  | NonFinite, NonFinite => True
  | _, _ => False
  end.

Definition oeq {V : Type} (R : V -> V -> Prop) (a b : outcome V) : Prop :=
  match a, b with
  | Ret x, Ret y => R x y
  | Raise e, Raise e' => e = e'
  | _, _ => False
  end.

(** ** evolve.py: the redshift edges *)

(** The body of the loop of [get_z_edges]:
    [(z_s[-1] + 1.) * zplusone_step_factor - 1.] *)
Definition z_step (f z : Q) : Q := (z + 1) * f - 1.

(** [while z_s[-1] < z_max: z_s.append(...)], with fuel for the number of
    iterations; [None] when the fuel runs out before the guard fails. *)
Fixpoint z_while (fuel : nat) (z_max f : Q) (z_s : list Q) : option (list Q) :=
  if Qltb (last z_s 0) z_max then
    match fuel with
    | O => None
    | S k => z_while k z_max f (z_s ++ [z_step f (last z_s 0)])
    end
  else Some z_s.

(** [np.clip(a, None, z_max)] *)
Definition clip_max (z_max : Q) (a : list Q) : list Q :=
  map (fun z => Qmin z z_max) a.

Definition get_z_edges (fuel : nat) (z_max z_min zplusone_step_factor : Q)
  : option (list Q) :=
  match z_while fuel z_max zplusone_step_factor [z_min] with
  | Some z_s => Some (clip_max z_max (rev z_s))
  | None => None
  end.

(** The first [n+1] values the loop generates from [z]:
    [z], [z_step f z], ... *)
Definition z_iterates (f z : Q) (n : nat) : list Q :=
  map (fun k => Nat.iter k (z_step f) z) (seq 0 (S n)).

(** What the claims say of a sequence of edges: it starts at [z_max], ends
    at [z_min], and past the first (clipped) element, [1+z] shrinks by the
    step factor from one edge to the next. *)
Definition edges_ok (z_max z_min f : Q) (z_s : list Q) : Prop :=
  nth 0 z_s 0 == z_max /\
  last z_s 0 == z_min /\
  forall i, (1 <= i)%nat -> (S i < length z_s)%nat ->
            1 + nth i z_s 0 == f * (1 + nth (S i) z_s 0).

(** ** evolve.py: the bath and the X-ray band *)

Definition ex_lo : Q := 100.
Definition ex_hi : Q := 10000.

Definition split_xray (phot_N phot_eng : list Q) : list Q * list Q :=
  let ix_lo := searchsorted_left phot_eng ex_lo in
  let ix_hi := searchsorted_left phot_eng ex_hi in
  let bath_N := mul_slice ix_lo ix_hi 0 phot_N in
  let xray_N := mul_slice ix_hi (length phot_N) 0 (mul_slice 0 ix_lo 0 phot_N) in
  (bath_N, xray_N).

(** ** evolve.py: the shells of the regular routine

    What the main loop does with the annulus cache.  The trace records, in
    program order, every shell the loop over
    [range(i_xray_loop_start, i_z)] visits: [FoldIntoBath] when it executes
    [phot_bath_spec.N += xray_spec.N], [InjectShell] when it injects the
    shell through the transfer functions. *)

Inductive event : Type :=
| FoldIntoBath (i_z i_z_shell : nat)
| InjectShell (i_z i_z_shell : nat).

Definition shell_of (e : event) : nat :=
  match e with
  | FoldIntoBath _ k => k
  | InjectShell _ k => k
  end.

Definition is_fold (e : event) : bool :=
  match e with
  | FoldIntoBath _ _ => true
  | InjectShell _ _ => false
  end.

Record loop_state : Type := {
  i_xray_loop_start : nat;   (* where we start looking for annuli *)
  trace : list event
}.

Section MainLoop.

(** [is_box_average i_z i_z_shell]: the flag that
    [xray_cacher.get_annulus_data(z_current, z_edges[i_z_shell],
    z_edges[i_z_shell+1])] returns at step [i_z] (the cacher is not part
    of the sources at hand: any answer is allowed). *)
Variable is_box_average : nat -> nat -> bool.

(** ['uniform_xray' in debug_flags] *)
Variable uniform_xray : bool.

Definition shell_body (i_z : nat) (st : loop_state) (i_z_shell : nat) : loop_state :=
  if is_box_average i_z i_z_shell || uniform_xray then
    {| i_xray_loop_start := Nat.max (i_z_shell + 1) (i_xray_loop_start st);
       trace := trace st ++ [FoldIntoBath i_z i_z_shell] |}
  else
    {| i_xray_loop_start := i_xray_loop_start st;
       trace := trace st ++ [InjectShell i_z i_z_shell] |}.

(** [for i_z_shell in range(i_xray_loop_start, i_z): ...]; the range is
    evaluated once, on entry. *)
Definition shell_loop (st : loop_state) (i_z : nat) : loop_state :=
  fold_left (shell_body i_z) (py_range (i_xray_loop_start st) i_z) st.

(** [for i_z in range(n): ...] *)
Definition main_loop (n : nat) (st : loop_state) : loop_state :=
  fold_left shell_loop (py_range 0 n) st.

(** The run: [i_xray_loop_start = 0], then [range(len(z_edges)-1)]. *)
Definition evolve_shells (len_z_edges : nat) : loop_state :=
  main_loop (len_z_edges - 1) {| i_xray_loop_start := 0; trace := [] |}.

End MainLoop.

(** The shell indices that were folded into the bath, in program order. *)
Definition folded_shells (tr : list event) : list nat :=
  map shell_of (filter is_fold tr).

(** ** evolve.py: preparing the spectra of the next step *)

Definition box : Type := list (list (list Q)).

(** The bin of the 10.2 eV line. *)
Definition i_lya : nat := 149.

Section NextStep.

(** [Spectrum(eng, N, rs=rs).redshift(new_rs)] of DarkHistory, as the bin
    array it leaves in the spectrum. *)
Variable redshift : list Q -> list Q -> Q -> Q -> list Q.

(** [prop_phot_N[149] = 0.] and [prop_phot_N + emit_bath_N] *)
Definition bath_N_before_redshift (photE prop_phot_N emit_phot_N : list Q)
  : outcome (list Q) :=
  prop_phot_N' <- setitem prop_phot_N i_lya 0 ;;
  let emit_bath_N := fst (split_xray emit_phot_N photE) in
  arr_add prop_phot_N' emit_bath_N.

Definition next_phot_bath_N (photE prop_phot_N emit_phot_N : list Q)
  (z_current z_next : Q) : outcome (list Q) :=
  N <- bath_N_before_redshift photE prop_phot_N emit_phot_N ;;
  Ret (redshift photE N (1 + z_current) (1 + z_next)).

End NextStep.

(** The shape of a box, and a box of zeros. *)
Definition box_shape (b : box) : list (list nat) := map (map (@length Q)) b.

Definition all_zeros (b : box) : Prop :=
  Forall (Forall (Forall (fun a => a == 0))) b.

(** [tf_wrapper.xray_eng_box / xray_tot_eng] *)
Definition box_div (b : box) (d : Q) : fval box :=
  if Qeq_bool d 0 then NonFinite
  else Finite (map (map (map (fun a => a / d))) b).

(** The relative-energy box that is cached for the step, with the divisors
    of the divisions that were executed. *)
Definition xray_rel_eng_box (photE emit_xray_N : list Q) (xray_eng_box : box)
  : outcome (fval box * list Q) :=
  xray_tot_eng <- dot photE emit_xray_N ;;
  if Qeq_bool xray_tot_eng 0 then
    Ret (Finite (czeros xray_eng_box), [])
  else
    Ret (box_div xray_eng_box xray_tot_eng, [xray_tot_eng]).

(** ** interpolators_jax.py: interpolation *)

Section Interpolation.

Context {V : Type} `{Cell V}.

(** [il = jnp.searchsorted(xp, x, side='right') - 1] *)
Definition left_index (xp : list Q) (x : Q) : Z :=
  (Z.of_nat (searchsorted_right xp x) - 1)%Z.

(** [wl = (xp[il+1] - x) / (xp[il+1] - xp[il])] *)
Definition left_weight (xp : list Q) (x : Q) : outcome (fval Q) :=
  let il := left_index xp x in
  xr <- getitem xp (il + 1) ;;
  xl <- getitem xp il ;;
  Ret (fdiv (xr - x) (xr - xl)).

(** [fp[il] * wl + fp[il+1] * (1 - wl)] *)
Definition interp1d (fp : list V) (xp : list Q) (x : Q) : outcome (fval V) :=
  let il := left_index xp x in
  w <- left_weight xp x ;;
  fl <- getitem fp il ;;
  fr <- getitem fp (il + 1) ;;
  Ret (match w with
       | Finite wl => Finite (cadd (cmul fl wl) (cmul fr (1 - wl)))
       | NonFinite => NonFinite
       end).

(** [fp[i, j]] *)
Definition getitem2 (fp : list (list V)) (i j : Z) : outcome V :=
  row <- getitem fp i ;; getitem row j.

(** One query of [interp2d] (the function under [vmap]). *)
Definition interp2d_point (fp : list (list V)) (x0p x1p : list Q) (x01 : Q * Q)
  : outcome (fval V) :=
  let '(x0, x1) := x01 in
  let i0l := left_index x0p x0 in
  w0 <- left_weight x0p x0 ;;
  let i1l := left_index x1p x1 in
  w1 <- left_weight x1p x1 ;;
  f00 <- getitem2 fp i0l i1l ;;
  f10 <- getitem2 fp (i0l + 1) i1l ;;
  f01 <- getitem2 fp i0l (i1l + 1) ;;
  f11 <- getitem2 fp (i0l + 1) (i1l + 1) ;;
  Ret (match w0, w1 with
       | Finite wl0, Finite wl1 =>
           let wr0 := 1 - wl0 in
           let wr1 := 1 - wl1 in
           Finite (cadd (cadd (cadd (cmul (cmul f00 wl0) wl1)
                                    (cmul (cmul f10 wr0) wl1))
                              (cmul (cmul f01 wl0) wr1))
                        (cmul (cmul f11 wr0) wr1))
       | _, _ => NonFinite
       end).

(** [interp2d], mapped over the batch of queries. *)
Definition interp2d (fp : list (list V)) (x0p x1p : list Q) (x01 : list (Q * Q))
  : outcome (list (fval V)) :=
  mapM (interp2d_point fp x0p x1p) x01.

(** [interp2d] on the result of an interpolation: when that is not
    finite, no row is. *)
Definition interp2d_f (fp : fval (list (list V))) (x0p x1p : list Q)
  (x01 : list (Q * Q)) : outcome (list (fval V)) :=
  match fp with
  | Finite d => interp2d d x0p x1p x01
  | NonFinite => Ret (map (fun _ => NonFinite) x01)
  end.

End Interpolation.

(** [jnp.all(v >= jnp.min(absc)) and jnp.all(v <= jnp.max(absc))] *)
Definition v_is_within (v : list Q) (absc : list Q) : outcome bool :=
  lo <- amin absc ;;
  if forallb (fun x => Qle_bool lo x) v then
    hi <- amax absc ;;
    Ret (forallb (fun x => Qle_bool x hi) v)
  else Ret false.

(** ** interpolators_jax.py: [BatchInterpolator] *)

Definition tensor3 : Type := list (list (list Q)).          (* n x o *)
Definition tensor4 : Type := list tensor3.                  (* r n x o *)
Definition tensor5 : Type := list (list tensor3).           (* r e n x o *)

(** [self.abscs], a dictionary with these keys. *)
Record Abscs : Type := {
  absc_rs : list Q;
  absc_Ein : list Q;
  absc_nBs : list Q;
  absc_x : list Q;
  absc_out : list Q
}.

Record BatchInterpolator : Type := {
  abscs : Abscs;
  data : tensor5;
  fixed_in_spec : option (list Q);
  fixed_in_spec_data : option tensor4
}.

(** [__init__], once the file is read. *)
Definition init (a : Abscs) (d : tensor5) : BatchInterpolator :=
  {| abscs := a; data := d; fixed_in_spec := None; fixed_in_spec_data := None |}.

Definition zeros_out (a : Abscs) : list Q := repeat 0 (length (absc_out a)).

Definition zeros_nxo (a : Abscs) : tensor3 :=
  repeat (repeat (zeros_out a) (length (absc_x a))) (length (absc_nBs a)).

(** The sum over [e] of [in_spec[e] * slab[e]]. *)
Definition contract (z : tensor3) (in_spec : list Q) (slab : list tensor3) : tensor3 :=
  fold_left (fun acc wc => cadd acc (cmul (snd wc) (fst wc))) (combine in_spec slab) z.

(** [jnp.einsum('e,renxo->rnxo', in_spec, self.data)], for a spectrum
    [in_spec] with one entry per input energy; the broadcast of a spectrum
    of one entry is left out, any other length is an error. *)
Definition einsum_e (a : Abscs) (in_spec : list Q) (d : tensor5) : outcome tensor4 :=
  mapM (fun slab =>
          if (length in_spec =? length slab)%nat
          then Ret (contract (zeros_nxo a) in_spec slab)
          else Raise ShapeError) d.

(** [set_fixed_in_spec]: the object after the call.  When the contraction
    raises, the exception leaves the method and the object is not used
    further. *)
Definition set_fixed_in_spec (bi : BatchInterpolator) (in_spec : list Q)
  : outcome BatchInterpolator :=
  d <- einsum_e (abscs bi) in_spec (data bi) ;;
  Ret {| abscs := abscs bi; data := data bi;
         fixed_in_spec := Some in_spec; fixed_in_spec_data := Some d |}.

(** [jnp.all(in_spec == self.fixed_in_spec)], for spectra over one
    abscissa; nothing equals [None]. *)
Definition same_spec (in_spec : list Q) (fixed : option (list Q)) : bool :=
  match fixed with
  | None => false
  | Some s =>
      (length in_spec =? length s)%nat
      && forallb (fun p => Qeq_bool (fst p) (snd p)) (combine in_spec s)
  end.

(** Step 1 of [__call__]: the sum over the input spectrum. *)
Definition in_spec_sum (bi : BatchInterpolator) (in_spec : list Q) : outcome tensor4 :=
  if same_spec in_spec (fixed_in_spec bi) then
    match fixed_in_spec_data bi with
    | Some d => Ret d
    | None => Raise TypeError
    end
  else einsum_e (abscs bi) in_spec (data bi).

Definition factor : Q := 100001 # 100000.

(** The bounds of [jnp.clip] for one axis:
    [jnp.min(absc)*factor] and [jnp.max(absc)/factor]. *)
Definition clip_bounds (absc : list Q) : outcome (Q * Q) :=
  lo <- amin absc ;;
  hi <- amax absc ;;
  Ret (lo * factor, hi / factor).

Definition clip_all (b : Q * Q) (v : list Q) : list Q :=
  map (fun x => clip x (fst b) (snd b)) v.

(** The first statement of [__call__]: the queries that are interpolated. *)
Definition check_or_clip (a : Abscs) (out_of_bounds_action : string)
  (rs : Q) (x_s nBs_s : list Q) : outcome (Q * list Q * list Q) :=
  if String.eqb out_of_bounds_action "clip" then
    b_rs <- clip_bounds (absc_rs a) ;;
    b_x <- clip_bounds (absc_x a) ;;
    b_nBs <- clip_bounds (absc_nBs a) ;;
    Ret (clip rs (fst b_rs) (snd b_rs), clip_all b_x x_s, clip_all b_nBs nBs_s)
  else
    ok_rs <- v_is_within [rs] (absc_rs a) ;;
    if negb ok_rs then Raise (OutOfBounds "rs") else
    ok_x <- v_is_within x_s (absc_x a) ;;
    if negb ok_x then Raise (OutOfBounds "x_s") else
    ok_nBs <- v_is_within nBs_s (absc_nBs a) ;;
    if negb ok_nBs then Raise (OutOfBounds "nBs_s") else
    Ret (rs, x_s, nBs_s).

(** Sums of rows that may be non-finite. *)
Definition fadd (a b : fval (list Q)) : fval (list Q) :=
  match a, b with
  | Finite x, Finite y => Finite (cadd x y)
  | _, _ => NonFinite
  end.

Definition fscale (a : fval (list Q)) (w : Q) : fval (list Q) :=
  match a with
  | Finite x => Finite (cmul x w)
  | NonFinite => NonFinite
  end.

(** [jnp.sum(rows, axis=0)] *)
Definition sum_rows (z : list Q) (rows : list (fval (list Q))) : fval (list Q) :=
  fold_left fadd rows (Finite z).

(** [jnp.dot(w, rows)] *)
Definition dot_rows (z : list Q) (w : list Q) (rows : list (fval (list Q)))
  : outcome (fval (list Q)) :=
  if (length w =? length rows)%nat
  then Ret (fold_left (fun acc wr => fadd acc (fscale (snd wr) (fst wr)))
                      (combine w rows) (Finite z))
  else Raise ShapeError.

Inductive call_result : Type :=
| Rows (rows : list (fval (list Q)))    (* sum_result=False *)
| Summed (v : fval (list Q)).           (* sum_result=True *)

(** The loop over the batches of the summing branch. *)
Fixpoint sum_batches (a : Abscs) (data_at_rs : fval tensor3)
  (sum_weight_batches : option (list (list Q)))
  (i_batch : nat) (batches : list (list (Q * Q))) (result : fval (list Q))
  : outcome (fval (list Q)) :=
  match batches with
  | [] => Ret result
  | nBs_x_in_batch :: batches' =>
      interp_result <-
        interp2d_f data_at_rs (absc_nBs a) (absc_x a) nBs_x_in_batch ;;
      term <-
        match sum_weight_batches with
        | None => Ret (sum_rows (zeros_out a) interp_result)
        | Some wb =>
            match nth_error wb i_batch with
            | Some w => dot_rows (zeros_out a) w interp_result
            | None => Raise IndexError
            end
        end ;;
      sum_batches a data_at_rs sum_weight_batches (S i_batch) batches'
                  (fadd result term)
  end.

(** Steps 2 and 3 of [__call__], from the contracted table.  The batch
    size is a positive integer (its default is [256**3]). *)
Definition call_from (bi : BatchInterpolator) (in_spec_data : tensor4)
  (rs : Q) (nBs_s x_s : list Q)
  (sum_result : bool) (sum_weight : option (list Q)) (sum_batch_size : positive)
  : outcome call_result :=
  let a := abscs bi in
  data_at_rs <- interp1d in_spec_data (absc_rs a) rs ;;
  if negb sum_result then
    nBs_x_in <- stack nBs_s x_s ;;
    rows <- interp2d_f data_at_rs (absc_nBs a) (absc_x a) nBs_x_in ;;
    Ret (Rows rows)
  else
    let split_n := ceil_div (length x_s) sum_batch_size in
    sum_weight_batches <-
      match sum_weight with
      | Some w => wb <- array_split w split_n ;; Ret (Some wb)
      | None => Ret None
      end ;;
    let result := Finite (zeros_out a) in
    nBs_x_in <- stack nBs_s x_s ;;
    nBs_x_in_batches <- array_split nBs_x_in split_n ;;
    v <- sum_batches a data_at_rs sum_weight_batches 0 nBs_x_in_batches result ;;
    Ret (Summed v).

(** [BatchInterpolator.__call__] *)
Definition call (bi : BatchInterpolator) (rs : Q) (in_spec nBs_s x_s : list Q)
  (sum_result : bool) (sum_weight : option (list Q)) (sum_batch_size : positive)
  (out_of_bounds_action : string) : outcome call_result :=
  q <- check_or_clip (abscs bi) out_of_bounds_action rs x_s nBs_s ;;
  let '(rs', x_s', nBs_s') := q in
  in_spec_data <- in_spec_sum bi in_spec ;;
  call_from bi in_spec_data rs' nBs_s' x_s' sum_result sum_weight sum_batch_size.

(** [__call__] with step 1 always recomputed: the reference the cached
    fast path is compared with. *)
Definition call_recontract (bi : BatchInterpolator) (rs : Q) (in_spec nBs_s x_s : list Q)
  (sum_result : bool) (sum_weight : option (list Q)) (sum_batch_size : positive)
  (out_of_bounds_action : string) : outcome call_result :=
  q <- check_or_clip (abscs bi) out_of_bounds_action rs x_s nBs_s ;;
  let '(rs', x_s', nBs_s') := q in
  in_spec_data <- einsum_e (abscs bi) in_spec (data bi) ;;
  call_from bi in_spec_data rs' nBs_s' x_s' sum_result sum_weight sum_batch_size.

(** The reduction that the summing branch is compared with: the plain or
    weighted sum of all the rows at once. *)
Definition reduce_rows (a : Abscs) (sum_weight : option (list Q))
  (r : call_result) : outcome call_result :=
  match r with
  | Rows rows =>
      match sum_weight with
      | None => Ret (Summed (sum_rows (zeros_out a) rows))
      | Some w => v <- dot_rows (zeros_out a) w rows ;; Ret (Summed v)
      end
  | Summed v => Ret (Summed v)
  end.

(** Two results of [__call__] with equal entries. *)
Definition result_eq (r1 r2 : call_result) : Prop :=
  match r1, r2 with
  | Rows a, Rows b => Forall2 (feq ceq) a b
  | Summed u, Summed v => feq ceq u v
  | _, _ => False
  end.

(** ** Well-formed tables and queries *)

(** [v] lies in the closed interval [[min(absc), max(absc)]]. *)
Definition within_range (absc : list Q) (v : Q) : Prop :=
  exists lo hi, amin absc = Ret lo /\ amax absc = Ret hi /\ lo <= v <= hi.

(** [v] lies strictly between [min(absc)] and [max(absc)]. *)
Definition strictly_within (absc : list Q) (v : Q) : Prop :=
  exists lo hi, amin absc = Ret lo /\ amax absc = Ret hi /\ lo < v < hi.

Definition all_within (a : Abscs) (rs : Q) (x_s nBs_s : list Q) : Prop :=
  within_range (absc_rs a) rs /\
  Forall (within_range (absc_x a)) x_s /\
  Forall (within_range (absc_nBs a)) nBs_s.

(** An abscissa on which the relative nudge of the clip policy moves
    inward: positive, and wide enough for the two bounds not to cross. *)
Definition clip_friendly (absc : list Q) : Prop :=
  exists lo hi, amin absc = Ret lo /\ amax absc = Ret hi /\
                0 < lo /\ lo * factor <= hi / factor.

(** A list of [n] elements that all satisfy [P]. *)
Definition has_len {A : Type} (n : nat) (P : A -> Prop) (l : list A) : Prop :=
  length l = n /\ Forall P l.

Definition shape3 (n x o : nat) : tensor3 -> Prop :=
  has_len n (has_len x (has_len o (fun _ : Q => True))).

(** An abscissa one can interpolate on. *)
Definition good_absc (xp : list Q) : Prop :=
  StronglySorted Qlt xp /\ (2 <= length xp)%nat.

(** A loaded table: the three interpolated abscissas are good, and [data]
    is a rectangular array whose shape is that of the abscissas. *)
Definition wf_table (bi : BatchInterpolator) : Prop :=
  let a := abscs bi in
  good_absc (absc_rs a) /\ good_absc (absc_nBs a) /\ good_absc (absc_x a) /\
  has_len (length (absc_rs a))
    (has_len (length (absc_Ein a))
       (shape3 (length (absc_nBs a)) (length (absc_x a)) (length (absc_out a))))
    (data bi).

(** The cache holds the contraction of the spectrum it was set for. *)
Definition cache_ok (bi : BatchInterpolator) : Prop :=
  forall s, fixed_in_spec bi = Some s ->
            exists d, fixed_in_spec_data bi = Some d /\
                      einsum_e (abscs bi) s (data bi) = Ret d.

Definition is_finite {A : Type} (v : fval A) : Prop := exists a, v = Finite a.

(** An exception that is not the out-of-bounds error. *)
Definition not_oob {A : Type} (m : outcome A) : Prop :=
  forall axis, m <> Raise (OutOfBounds axis).

(** ** Notions used in the proofs *)

(** Every shell folded so far is below [p]. *)
Definition folds_below (p : nat) (tr : list event) : Prop :=
  Forall (fun e => is_fold e = true -> (shell_of e < p)%nat) tr.

(** After a shell is folded, every later visit is to a higher shell. *)
Definition never_revisited (tr : list event) : Prop :=
  forall t1 i k t2, tr = t1 ++ FoldIntoBath i k :: t2 ->
                    Forall (fun e => (k < shell_of e)%nat) t2.

(** What holds between two visits. *)
Definition shells_inv (st : loop_state) : Prop :=
  folds_below (i_xray_loop_start st) (trace st) /\ never_revisited (trace st).

(** The test of [v_is_within], given the two bounds. *)
Definition within_b (lo hi : Q) (v : list Q) : bool :=
  forallb (fun x => Qle_bool lo x) v && forallb (fun x => Qle_bool x hi) v.

(** Rows, and interpolated tables, with equal entries. *)
Definition row_eq : fval (list Q) -> fval (list Q) -> Prop := feq ceq.

Definition tensor3_eq : fval tensor3 -> fval tensor3 -> Prop := feq ceq.

(** One query of step 3, on the table interpolated at [rs]. *)
Definition point_f (dat : fval tensor3) (x0p x1p : list Q) (q : Q * Q)
  : outcome (fval (list Q)) :=
  match dat with
  | Finite d => interp2d_point d x0p x1p q
  | NonFinite => Ret NonFinite
  end.

(** An accumulator that is no longer than the vector of zeros. *)
Definition fits (k : nat) (acc : fval (list Q)) : Prop :=
  match acc with
  | Finite v => (length v <= k)%nat
  | NonFinite => True
  end.

(** The weighted rows: [w[k] * rows[k]]. *)
Definition scaled (w : list Q) (rows : list (fval (list Q))) : list (fval (list Q)) :=
  map (fun wr => fscale (snd wr) (fst wr)) (combine w rows).

(** ** Concrete inputs, for the examples *)


(** Spectra of 200 bins; the second differs from the first at bin 149. *)
Definition ex_photE : list Q := map (fun k => inject_Z (Z.of_nat k)) (seq 1 200).
Definition ex_prop_phot_N : list Q := repeat 1 200.
Definition ex_prop_phot_N' : list Q :=
  firstn 149 ex_prop_phot_N ++ 7 :: skipn 150 ex_prop_phot_N.
Definition ex_emit_phot_N : list Q := repeat 2 200.
Definition ex_redshift (eng N : list Q) (rs new_rs : Q) : list Q :=
  map (fun x => x * (new_rs / rs)) N.

Definition ex_box : box := [[[1; 2]; [3; 4]]; [[5; 6]; [7; 8]]].

(** A function on three grid points, and one on a 2 by 3 grid. *)
Definition ex_xp : list Q := [0; 1; 2].
Definition ex_fp : list Q := [10; 20; 40].
Definition ex_x0p : list Q := [0; 1].
Definition ex_x1p : list Q := [0; 1; 2].
Definition ex_grid : list (list Q) := [[1; 2; 3]; [4; 5; 6]].

(** A table on two points per axis, one input energy and one output. *)
Definition ex_data : tensor5 :=
  [ [ [ [[1]; [2]]; [[3]; [4]] ] ];
    [ [ [[5]; [6]]; [[7]; [8]] ] ] ].

Definition ex_abscs : Abscs :=
  {| absc_rs := [1; 2]; absc_Ein := [10]; absc_nBs := [1; 2];
     absc_x := [1 # 10; 1]; absc_out := [0] |}.

Definition ex_bi : BatchInterpolator := init ex_abscs ex_data.

(** The same table with an ionization abscissa that starts at zero. *)
Definition ex_abscs0 : Abscs :=
  {| absc_rs := [1; 2]; absc_Ein := [10]; absc_nBs := [1; 2];
     absc_x := [0; 1]; absc_out := [0] |}.

Definition ex_bi0 : BatchInterpolator := init ex_abscs0 ex_data.

(** * Proofs *)

(** ** Comparisons *)

Lemma Qltb_lt (x y : Q) : Qltb x y = true <-> x < y.
Proof.
  unfold Qltb. rewrite negb_true_iff.
  destruct (Qle_bool y x) eqn:E.
  - apply Qle_bool_iff in E. split; [discriminate | intro; lra].
  - split; [intros _ | reflexivity].
    destruct (Qlt_le_dec x y) as [Hlt|Hle]; [exact Hlt|].
    apply Qle_bool_iff in Hle. congruence.
Qed.

Lemma Qltb_ge (x y : Q) : Qltb x y = false <-> y <= x.
Proof.
  unfold Qltb. rewrite negb_false_iff. apply Qle_bool_iff.
Qed.

Lemma Qle_bool_false (x y : Q) : Qle_bool x y = false <-> y < x.
Proof.
  rewrite <- Qltb_lt. unfold Qltb. rewrite negb_true_iff. reflexivity.
Qed.

(** ** Lists *)

Lemma nth_map_seq {A : Type} (g : nat -> A) (d : A) (n k : nat) :
  (k < n)%nat -> nth k (map g (seq 0 n)) d = g k.
Proof.
  intros Hk.
  rewrite (nth_indep _ d (g O)) by (rewrite length_map, length_seq; lia).
  rewrite (map_nth g (seq 0 n) O k), seq_nth by lia. reflexivity.
Qed.

(** ** The redshift edges *)

Section ZEdges.

Variables z_max f : Q.

Lemma z_iterates_length z n : length (z_iterates f z n) = S n.
Proof. unfold z_iterates. now rewrite length_map, length_seq. Qed.

Lemma z_iterates_nth z n k :
  (k <= n)%nat -> nth k (z_iterates f z n) 0 = Nat.iter k (z_step f) z.
Proof.
  intros Hk. unfold z_iterates.
  apply (nth_map_seq (fun j => Nat.iter j (z_step f) z)). lia.
Qed.

Lemma z_iterates_S z n :
  z_iterates f z (S n) = z_iterates f z n ++ [Nat.iter (S n) (z_step f) z].
Proof.
  unfold z_iterates. rewrite (seq_S (S n) 0), map_app. reflexivity.
Qed.

Lemma z_iterates_last z n : last (z_iterates f z n) 0 = Nat.iter n (z_step f) z.
Proof.
  destruct n as [|n]; [reflexivity|].
  rewrite z_iterates_S. apply last_last.
Qed.

Lemma z_while_unfold fuel z_s :
  z_while fuel z_max f z_s =
  if Qltb (last z_s 0) z_max then
    match fuel with
    | O => None
    | S k => z_while k z_max f (z_s ++ [z_step f (last z_s 0)])
    end
  else Some z_s.
Proof. destruct fuel; reflexivity. Qed.

Lemma z_while_iterates_step fuel z m :
  z_while fuel z_max f (z_iterates f z m) =
  if Qltb (Nat.iter m (z_step f) z) z_max then
    match fuel with
    | O => None
    | S k => z_while k z_max f (z_iterates f z (S m))
    end
  else Some (z_iterates f z m).
Proof.
  rewrite z_while_unfold, z_iterates_last, z_iterates_S. reflexivity.
Qed.

(** The loop only ever holds a list of iterates, and stops at the first
    one that is not below [z_max]. *)
Lemma z_while_iterates fuel : forall z m z_s,
  z_while fuel z_max f (z_iterates f z m) = Some z_s ->
  exists n, (m <= n <= m + fuel)%nat /\ z_s = z_iterates f z n /\
            z_max <= Nat.iter n (z_step f) z /\
            forall k, (m <= k < n)%nat -> Nat.iter k (z_step f) z < z_max.
Proof.
  induction fuel as [|fuel IH]; intros z m z_s;
    rewrite z_while_iterates_step;
    destruct (Qltb (Nat.iter m (z_step f) z) z_max) eqn:G;
    try discriminate.
  - intros [= <-]. exists m. apply Qltb_ge in G.
    repeat split; try lia; auto; intros; lia.
  - intros Hrun.
    destruct (IH _ _ _ Hrun) as (n & Hn & -> & Hstop & Hbelow).
    exists n. repeat split; try lia; auto.
    intros k Hk. destruct (Nat.eq_dec k m) as [->|Hne].
    + now apply Qltb_lt.
    + apply Hbelow. lia.
  - intros [= <-]. exists m. apply Qltb_ge in G.
    repeat split; try lia; auto; intros; lia.
Qed.

(** Enough fuel: the loop stops as soon as some iterate reaches [z_max]. *)
Lemma z_while_stops fuel : forall z m,
  z_max <= Nat.iter (m + fuel) (z_step f) z ->
  exists z_s, z_while fuel z_max f (z_iterates f z m) = Some z_s.
Proof.
  induction fuel as [|fuel IH]; intros z m Hreach;
    rewrite z_while_iterates_step;
    destruct (Qltb (Nat.iter m (z_step f) z) z_max) eqn:G; eauto.
  - apply Qltb_lt in G. rewrite Nat.add_0_r in Hreach. lra.
  - apply IH.
    now replace (S m + fuel)%nat with (m + S fuel)%nat by lia.
Qed.

(** More fuel does not change the result. *)
Lemma z_while_more fuel : forall z_s r,
  z_while fuel z_max f z_s = Some r ->
  forall fuel', (fuel <= fuel')%nat -> z_while fuel' z_max f z_s = Some r.
Proof.
  induction fuel as [|fuel IH]; intros z_s r; simpl;
    destruct (Qltb (last z_s 0) z_max) eqn:G; try discriminate;
    intros Hrun fuel' Hle.
  - destruct fuel'; simpl; rewrite G; assumption.
  - destruct fuel' as [|fuel']; [lia|]. simpl. rewrite G.
    apply IH; [assumption | lia].
  - destruct fuel'; simpl; rewrite G; assumption.
Qed.

(** [1+z] grows geometrically along the iterates. *)
Lemma iter_geom z k : 1 + Nat.iter k (z_step f) z == (1 + z) * geom f k.
Proof.
  induction k as [|k IH]; simpl.
  - ring.
  - unfold z_step at 1.
    setoid_replace (1 + ((Nat.iter k (z_step f) z + 1) * f - 1))
      with ((1 + Nat.iter k (z_step f) z) * f) by ring.
    rewrite IH. ring.
Qed.

Lemma geom_bernoulli k :
  1 <= f -> 1 + inject_Z (Z.of_nat k) * (f - 1) <= geom f k.
Proof.
  intros Hf. induction k as [|k IH].
  - cbn [geom Z.of_nat]. change (inject_Z 0) with 0. lra.
  - rewrite Nat2Z.inj_succ. unfold Z.succ. rewrite inject_Z_plus.
    change (inject_Z 1) with 1. cbn [geom].
    assert (Hk : 0 <= inject_Z (Z.of_nat k)).
    { change 0 with (inject_Z 0). rewrite <- Zle_Qle. lia. }
    set (a := inject_Z (Z.of_nat k)) in *.
    assert (H1 : (1 + a * (f - 1)) * f <= geom f k * f).
    { apply Qmult_le_compat_r; lra. }
    assert (H2 : 0 <= a * (f - 1) * (f - 1)).
    { apply Qmult_le_0_compat; [apply Qmult_le_0_compat|]; lra. }
    lra.
Qed.

(** Some iterate reaches [z_max]. *)
Lemma iterates_reach z :
  0 < 1 + z -> 1 < f -> exists n, z_max <= Nat.iter n (z_step f) z.
Proof.
  intros Hz Hf.
  destruct (Qarchimedean ((1 + z_max) / ((1 + z) * (f - 1)))) as [p Hp].
  exists (Pos.to_nat p).
  assert (Hg := geom_bernoulli (Pos.to_nat p) (Qlt_le_weak _ _ Hf)).
  rewrite positive_nat_Z in Hg.
  assert (Hi := iter_geom z (Pos.to_nat p)).
  set (P := inject_Z (Z.pos p)) in *.
  change (Z.pos p # 1) with P in Hp.
  assert (Hpos : 0 < (1 + z) * (f - 1)).
  { apply Qmult_lt_0_compat; lra. }
  assert (H1 : 1 + z_max < P * ((1 + z) * (f - 1))).
  { setoid_replace (1 + z_max)
      with ((1 + z_max) / ((1 + z) * (f - 1)) * ((1 + z) * (f - 1)))
      by (field; lra).
    apply Qmult_lt_compat_r; assumption. }
  assert (H2 : (1 + P * (f - 1)) * (1 + z) <= geom f (Pos.to_nat p) * (1 + z)).
  { apply Qmult_le_compat_r; lra. }
  lra.
Qed.

End ZEdges.

Lemma z_iterates_0 (f z : Q) : z_iterates f z 0 = [z].
Proof. reflexivity. Qed.

(** The loop from [[z_min]] stops after some number [n] of appends, with
    exactly the iterates, whatever fuel beyond [n] it is given. *)
Lemma z_while_total (z_max z_min f : Q) :
  0 < 1 + z_min -> 1 < f ->
  exists n,
    (forall fuel, (n <= fuel)%nat ->
       z_while fuel z_max f [z_min] = Some (z_iterates f z_min n)) /\
    z_max <= Nat.iter n (z_step f) z_min /\
    (forall k, (k < n)%nat -> Nat.iter k (z_step f) z_min < z_max).
Proof.
  intros Hz Hf.
  destruct (iterates_reach z_max f z_min Hz Hf) as [N HN].
  destruct (z_while_stops z_max f N z_min 0 HN) as [z_s Hrun].
  destruct (z_while_iterates _ _ _ _ _ _ Hrun) as (n & Hn & -> & Hstop & Hbelow).
  exists n. split; [|split].
  - intros fuel Hfuel.
    destruct (z_while_stops z_max f n z_min 0 Hstop) as [z_s' Hrun'].
    rewrite z_iterates_0 in *.
    rewrite (z_while_more _ _ _ _ _ Hrun' N) in Hrun by lia.
    injection Hrun as ->.
    now apply (z_while_more _ _ _ _ _ Hrun').
  - exact Hstop.
  - intros k Hk. apply Hbelow. lia.
Qed.

Lemma nth_clip_rev_iterates (z_max f z : Q) (n i : nat) :
  (i <= n)%nat ->
  nth i (clip_max z_max (rev (z_iterates f z n))) 0
  = Qmin (Nat.iter (n - i) (z_step f) z) z_max.
Proof.
  intros Hi. unfold clip_max.
  rewrite (nth_indep _ 0 ((fun x => Qmin x z_max) 0))
    by (rewrite length_map, length_rev, z_iterates_length; lia).
  rewrite (map_nth (fun x => Qmin x z_max)).
  rewrite rev_nth by (rewrite z_iterates_length; lia).
  rewrite z_iterates_length, z_iterates_nth by lia.
  replace (S n - S i)%nat with (n - i)%nat by lia. reflexivity.
Qed.

Lemma last_clip_rev_iterates (z_max f z : Q) (n : nat) :
  last (clip_max z_max (rev (z_iterates f z n))) 0 = Qmin z z_max.
Proof.
  unfold z_iterates, clip_max. cbn [seq map rev].
  rewrite map_app. apply last_last.
Qed.

(** What [get_z_edges] returns when the loop made [n] appends. *)
Lemma edges_of_iterates (z_max z_min f : Q) (n : nat) :
  z_min < z_max ->
  z_max <= Nat.iter n (z_step f) z_min ->
  (forall k, (k < n)%nat -> Nat.iter k (z_step f) z_min < z_max) ->
  edges_ok z_max z_min f (clip_max z_max (rev (z_iterates f z_min n))).
Proof.
  intros Hlt Hstop Hbelow. unfold edges_ok. split; [|split].
  - rewrite nth_clip_rev_iterates by lia. rewrite Nat.sub_0_r.
    now apply Q.min_r.
  - rewrite last_clip_rev_iterates. apply Q.min_l. lra.
  - intros i Hi Hlen.
    unfold clip_max in Hlen.
    rewrite length_map, length_rev, z_iterates_length in Hlen.
    rewrite !nth_clip_rev_iterates by lia.
    rewrite (Q.min_l (Nat.iter (n - i) (z_step f) z_min))
      by (apply Qlt_le_weak, Hbelow; lia).
    rewrite (Q.min_l (Nat.iter (n - S i) (z_step f) z_min))
      by (apply Qlt_le_weak, Hbelow; lia).
    replace (n - i)%nat with (S (n - S i)) by lia.
    rewrite Nat.iter_succ.
    set (x := Nat.iter (n - S i) (z_step f) z_min).
    unfold z_step. ring.
Qed.

(** C10: for [1 + z_min > 0], [z_min < z_max] and a step factor above 1 the
    loop of [get_z_edges] terminates: after some number [n] of appends the
    guard fails, and any fuel from [n] on gives the same list; the values
    generated satisfy [1 + z_k = (1 + z_min) * f^k], so that they reach
    [1 + z_max]. *)
Theorem get_z_edges_terminates (z_max z_min f : Q) :
  0 < 1 + z_min -> z_min < z_max -> 1 < f ->
  exists n z_s,
    (forall fuel, (n <= fuel)%nat ->
       z_while fuel z_max f [z_min] = Some z_s /\
       get_z_edges fuel z_max z_min f = Some (clip_max z_max (rev z_s))) /\
    length z_s = S n /\
    (forall k, (k <= n)%nat -> 1 + nth k z_s 0 == (1 + z_min) * geom f k) /\
    1 + z_max <= (1 + z_min) * geom f n.
Proof.
  intros Hz _ Hf.
  destruct (z_while_total z_max z_min f Hz Hf) as (n & Hrun & Hstop & _).
  exists n, (z_iterates f z_min n). repeat split.
  - now apply Hrun.
  - unfold get_z_edges. now rewrite Hrun.
  - apply z_iterates_length.
  - intros k Hk. rewrite z_iterates_nth by assumption. apply iter_geom.
  - rewrite <- iter_geom. lra.
Qed.

Lemma get_z_edges_terminates_witness :
  exists n z_s,
    (forall fuel, (n <= fuel)%nat ->
       z_while fuel 3 (3 # 2) [1] = Some z_s /\
       get_z_edges fuel 3 1 (3 # 2) = Some (clip_max 3 (rev z_s))) /\
    length z_s = S n /\
    (forall k, (k <= n)%nat -> 1 + nth k z_s 0 == (1 + 1) * geom (3 # 2) k) /\
    1 + 3 <= (1 + 1) * geom (3 # 2) n.
Proof.
  apply (get_z_edges_terminates 3 1 (3 # 2)); reflexivity.
Defined.

(** C2: for [z_max > z_min] and a step factor [f > 1], every sequence that
    [get_z_edges] returns starts at [z_max] (the clipped first element),
    ends at [z_min], and has [(1+z_i) = f * (1+z_{i+1})] for every pair
    past the first element; and for a redshift [z_min > -1] it does return
    one. *)
Theorem get_z_edges_geometric (z_max z_min f : Q) :
  z_min < z_max -> 1 < f ->
  (forall fuel z_s,
     get_z_edges fuel z_max z_min f = Some z_s -> edges_ok z_max z_min f z_s) /\
  (0 < 1 + z_min -> exists fuel z_s, get_z_edges fuel z_max z_min f = Some z_s).
Proof.
  intros Hlt Hf. split.
  - intros fuel z_s. unfold get_z_edges.
    destruct (z_while fuel z_max f [z_min]) as [raw|] eqn:Hrun; [|discriminate].
    intros [= <-]. rewrite <- z_iterates_0 with (f := f) in Hrun.
    destruct (z_while_iterates _ _ _ _ _ _ Hrun) as (n & _ & -> & Hstop & Hbelow).
    apply edges_of_iterates; auto. intros k Hk. apply Hbelow. lia.
  - intros Hz.
    destruct (z_while_total z_max z_min f Hz Hf) as (n & Hrun & _).
    exists n, (clip_max z_max (rev (z_iterates f z_min n))).
    unfold get_z_edges. now rewrite Hrun.
Qed.

Lemma get_z_edges_geometric_witness :
  (forall fuel z_s,
     get_z_edges fuel 3 1 (3 # 2) = Some z_s -> edges_ok 3 1 (3 # 2) z_s) /\
  (0 < 1 + 1 -> exists fuel z_s, get_z_edges fuel 3 1 (3 # 2) = Some z_s).
Proof.
  apply (get_z_edges_geometric 3 1 (3 # 2)); reflexivity.
Defined.

(** ** Searching a sorted abscissa *)




(** ** Slices *)

Lemma mapi_from_length {A B : Type} (g : nat -> A -> B) (l : list A) :
  forall s, length (mapi_from s g l) = length l.
Proof. induction l as [|a l IH]; simpl; intros s; [|rewrite IH]; reflexivity. Qed.


Lemma mul_slice_length (lo hi : nat) (c : Q) (a : list Q) :
  length (mul_slice lo hi c a) = length a.
Proof. apply mapi_from_length. Qed.


(** ** The bath and the X-ray band *)

Section SplitXray.

Variables phot_N phot_eng : list Q.

Let ix_lo := searchsorted_left phot_eng ex_lo.
Let ix_hi := searchsorted_left phot_eng ex_hi.

Lemma split_xray_length :
  length (fst (split_xray phot_N phot_eng)) = length phot_N /\
  length (snd (split_xray phot_N phot_eng)) = length phot_N.
Proof.
  unfold split_xray; simpl. now rewrite !mul_slice_length.
Qed.





Hypothesis Hsorted : StronglySorted Qle phot_eng.
Hypothesis Hlen : length phot_N = length phot_eng.



End SplitXray.



(** C3, at a bin that sits exactly at 10 keV: the bin is in the closed
    band [100 eV, 10 keV], and the comment on [ix_hi] makes it the index of
    the first bin greater than [ex_hi], which is 2 here and would put the
    bin in the X-ray part; the search of the code (side='left') stops at 1,
    so that [bath_N] keeps the photons of the bin and [xray_N] has none. *)
Theorem split_xray_upper_edge_in_bath :
  StronglySorted Qle [50; 10000; 20000] /\
  ex_lo <= nth 1 [50; 10000; 20000] 0 <= ex_hi /\
  searchsorted_right [50; 10000; 20000] ex_hi = 2%nat /\
  searchsorted_left [50; 10000; 20000] ex_hi = 1%nat /\
  split_xray [1; 1; 1] [50; 10000; 20000] = ([1; 1; 1], [1 * 0; 1 * 0; 1 * 0]) /\
  ~ nth 1 (fst (split_xray [1; 1; 1] [50; 10000; 20000])) 0 == 0 /\
  nth 1 (snd (split_xray [1; 1; 1] [50; 10000; 20000])) 0 == 0.
Proof.
  split; [repeat constructor; discriminate|].
  split; [split; discriminate|].
  split; [reflexivity|]. split; [reflexivity|].
  split; [reflexivity|]. split; [simpl; discriminate | reflexivity].
Qed.

(** ** The shells of the regular routine *)

Lemma folds_below_weaken (p q : nat) (tr : list event) :
  (p <= q)%nat -> folds_below p tr -> folds_below q tr.
Proof.
  intros Hpq. unfold folds_below. apply Forall_impl. intros e He Hf.
  specialize (He Hf). lia.
Qed.

Lemma never_revisited_snoc (tr : list event) (e : event) :
  never_revisited tr -> folds_below (shell_of e) tr ->
  never_revisited (tr ++ [e]).
Proof.
  intros Hord Hbelow t1 i k t2 Heq.
  induction t2 as [|x t2' _] using rev_ind; [apply Forall_nil|].
  rewrite app_comm_cons, app_assoc in Heq.
  apply app_inj_tail in Heq as [Htr <-].
  apply Forall_app. split.
  - exact (Hord _ _ _ _ Htr).
  - constructor; [|constructor].
    unfold folds_below in Hbelow. rewrite Forall_forall in Hbelow.
    apply (Hbelow (FoldIntoBath i k)); [|reflexivity].
    rewrite Htr. apply in_elt.
Qed.

Lemma never_revisited_tail (e : event) (tr : list event) :
  never_revisited (e :: tr) -> never_revisited tr.
Proof.
  intros Hord t1 i k t2 Heq. apply (Hord (e :: t1) i k t2).
  now rewrite Heq.
Qed.

(** No shell is folded twice. *)
Lemma never_revisited_NoDup (tr : list event) :
  never_revisited tr -> NoDup (folded_shells tr).
Proof.
  induction tr as [|e tr IH]; intros Hord; [constructor|].
  specialize (IH (never_revisited_tail _ _ Hord)).
  unfold folded_shells in *. cbn [filter].
  destruct e as [i k|i k]; cbn [is_fold map shell_of]; [|exact IH].
  constructor; [|exact IH].
  intros Hin. apply in_map_iff in Hin as (e' & Hk & Hin).
  apply filter_In in Hin as [Hin _].
  pose proof (Hord [] i k tr eq_refl) as Hall.
  rewrite Forall_forall in Hall. specialize (Hall e' Hin). lia.
Qed.

Section MainLoopFacts.

Variable is_box_average : nat -> nat -> bool.
Variable uniform_xray : bool.

Let body := shell_body is_box_average uniform_xray.
Let inner := shell_loop is_box_average uniform_xray.
Let outer := main_loop is_box_average uniform_xray.

Lemma shell_body_inv i_z st s :
  shells_inv st -> (i_xray_loop_start st <= s)%nat ->
  shells_inv (body i_z st s) /\
  (i_xray_loop_start st <= i_xray_loop_start (body i_z st s) <= S s)%nat.
Proof.
  intros [Hbelow Hord] Hs. unfold body, shell_body.
  assert (Hsnoc : forall e, shell_of e = s -> never_revisited (trace st ++ [e])).
  { intros e He. apply never_revisited_snoc; [assumption|].
    rewrite He. now apply folds_below_weaken with (i_xray_loop_start st). }
  destruct (is_box_average i_z s || uniform_xray);
    unfold shells_inv; cbn [i_xray_loop_start trace];
    (split; [split|lia]); try (now apply Hsnoc).
  - apply Forall_app. split.
    + apply folds_below_weaken with (i_xray_loop_start st); [lia|assumption].
    + constructor; [|constructor]. cbn. intros _. lia.
  - apply Forall_app. split; [assumption|].
    constructor; [|constructor]. cbn. discriminate.
Qed.

(** The loop over [seq a n], entered with the pointer at most [a]. *)
Lemma shell_seq_inv i_z n : forall a st,
  shells_inv st -> (i_xray_loop_start st <= a)%nat ->
  let st' := fold_left (body i_z) (seq a n) st in
  shells_inv st' /\
  (i_xray_loop_start st <= i_xray_loop_start st' <= a + n)%nat.
Proof.
  induction n as [|n IH]; intros a st Hinv Ha; cbn [seq fold_left].
  - split; [assumption|lia].
  - destruct (shell_body_inv i_z st a Hinv Ha) as [Hinv' Hptr].
    destruct (IH (S a) (body i_z st a) Hinv') as [Hinv'' Hptr']; [lia|].
    split; [assumption|lia].
Qed.

Lemma shell_loop_inv st i_z :
  shells_inv st ->
  shells_inv (inner st i_z) /\
  (i_xray_loop_start st <= i_xray_loop_start (inner st i_z))%nat.
Proof.
  intros Hinv. unfold inner, shell_loop, py_range. fold body.
  destruct (shell_seq_inv i_z (i_z - i_xray_loop_start st)
              (i_xray_loop_start st) st Hinv (Nat.le_refl _)) as [Hinv' Hptr].
  split; [assumption|lia].
Qed.

Lemma fold_shell_loop_inv l : forall st,
  shells_inv st ->
  shells_inv (fold_left inner l st) /\
  (i_xray_loop_start st <= i_xray_loop_start (fold_left inner l st))%nat.
Proof.
  induction l as [|i_z l IH]; intros st Hinv; cbn [fold_left].
  - split; [assumption|lia].
  - destruct (shell_loop_inv st i_z Hinv) as [Hinv' Hptr].
    destruct (IH _ Hinv') as [Hinv'' Hptr'].
    split; [assumption|lia].
Qed.

Lemma main_loop_split n m st :
  (n <= m)%nat ->
  outer m st = fold_left inner (seq n (m - n)) (outer n st).
Proof.
  intros Hnm. unfold outer, main_loop, py_range. fold inner.
  rewrite !Nat.sub_0_r.
  replace m with (n + (m - n))%nat at 1 by lia.
  rewrite seq_app, fold_left_app. reflexivity.
Qed.

Lemma shells_inv_init :
  shells_inv {| i_xray_loop_start := 0; trace := [] |}.
Proof.
  split; [constructor|]. intros [|e t1] i k t2; discriminate.
Qed.

Lemma main_loop_inv n :
  shells_inv (outer n {| i_xray_loop_start := 0; trace := [] |}).
Proof.
  unfold outer, main_loop. apply fold_shell_loop_inv, shells_inv_init.
Qed.

End MainLoopFacts.

(** C1: whatever the cacher reports, over the iterations of the main loop
    the pointer [i_xray_loop_start] never decreases, no shell index is
    folded into the bath spectrum twice, and once a shell is folded every
    later visit of the loop over the shells is to a higher index. *)
Theorem shells_folded_at_most_once
  (is_box_average : nat -> nat -> bool) (uniform_xray : bool) (len_z_edges : nat) :
  let st0 := {| i_xray_loop_start := 0; trace := [] |} in
  let run := evolve_shells is_box_average uniform_xray len_z_edges in
  (forall n m, (n <= m)%nat ->
     (i_xray_loop_start (main_loop is_box_average uniform_xray n st0)
      <= i_xray_loop_start (main_loop is_box_average uniform_xray m st0))%nat) /\
  NoDup (folded_shells (trace run)) /\
  (forall t1 i_z i_z_shell t2,
     trace run = t1 ++ FoldIntoBath i_z i_z_shell :: t2 ->
     Forall (fun e => (i_z_shell < shell_of e)%nat) t2).
Proof.
  intros st0 run. split; [|split].
  - intros n m Hnm.
    rewrite (main_loop_split is_box_average uniform_xray n m st0 Hnm).
    apply fold_shell_loop_inv, main_loop_inv.
  - apply never_revisited_NoDup. apply main_loop_inv.
  - apply main_loop_inv.
Qed.

(** ** Preparing the spectra of the next step *)

Lemma nth_update (a : list Q) (v : Q) : forall i j,
  (i < length a)%nat ->
  nth j (firstn i a ++ v :: skipn (S i) a) 0 = if (j =? i)%nat then v else nth j a 0.
Proof.
  induction a as [|x a IH]; intros i j Hi; simpl in Hi; [lia|].
  destruct i as [|i].
  - destruct j; reflexivity.
  - cbn [firstn skipn app]. destruct j as [|j]; [reflexivity|].
    cbn [nth]. rewrite IH by lia. reflexivity.
Qed.

Lemma update_length (a : list Q) (v : Q) (i : nat) :
  (i < length a)%nat -> length (firstn i a ++ v :: skipn (S i) a) = length a.
Proof.
  intros Hi. rewrite length_app, length_firstn. cbn [length].
  rewrite length_skipn. lia.
Qed.

Lemma zip_with_length {A B C : Type} (g : A -> B -> C) (l : list A) :
  forall m, length l = length m -> length (zip_with g l m) = length l.
Proof.
  induction l as [|a l IH]; intros [|b m] Hlen; simpl in *; try lia.
  now rewrite IH by lia.
Qed.

Lemma nth_zip_with {A B C : Type} (g : A -> B -> C) (da : A) (db : B) (dc : C)
  (l : list A) :
  forall m i, (i < length l)%nat -> (i < length m)%nat ->
              nth i (zip_with g l m) dc = g (nth i l da) (nth i m db).
Proof.
  induction l as [|a l IH]; intros [|b m] i Hl Hm; simpl in *; try lia.
  destruct i as [|i]; [reflexivity|]. apply IH; lia.
Qed.

(** [prop_phot_N[149] = 0.] forgets what was in the bin. *)
Lemma setitem_forgets (a a' : list Q) (i : nat) (v : Q) :
  length a = length a' ->
  (forall j, j <> i -> nth j a 0 = nth j a' 0) ->
  setitem a i v = setitem a' i v.
Proof.
  intros Hlen Hagree. unfold setitem. rewrite <- Hlen.
  destruct (i <? length a)%nat eqn:Hi; [|reflexivity].
  apply Nat.ltb_lt in Hi. f_equal.
  apply nth_ext with (d := 0) (d' := 0).
  - rewrite !update_length; lia.
  - intros j _. rewrite !nth_update by lia.
    destruct (j =? i)%nat eqn:E; [reflexivity|].
    apply Hagree. now apply Nat.eqb_neq.
Qed.

(** C8: the propagating photons of bin 149 (the 10.2 eV line) are set to
    zero before the bath spectrum of the next step is assembled: that
    spectrum is the same for any two [prop_phot_N] that differ at bin 149
    only, and before the redshift its bin 149 holds the emitted bath-band
    photons alone; with spectra over one abscissa of more than 149 bins
    the assembly does return. *)
Theorem lya_bin_only_emitted
  (redshift : list Q -> list Q -> Q -> Q -> list Q)
  (photE prop_phot_N prop_phot_N' emit_phot_N : list Q) (z_current z_next : Q) :
  length prop_phot_N = length prop_phot_N' ->
  (forall j, j <> i_lya -> nth j prop_phot_N 0 = nth j prop_phot_N' 0) ->
  next_phot_bath_N redshift photE prop_phot_N emit_phot_N z_current z_next
  = next_phot_bath_N redshift photE prop_phot_N' emit_phot_N z_current z_next /\
  (forall N, bath_N_before_redshift photE prop_phot_N emit_phot_N = Ret N ->
             nth i_lya N 0 == nth i_lya (fst (split_xray emit_phot_N photE)) 0) /\
  ((i_lya < length prop_phot_N)%nat -> length emit_phot_N = length prop_phot_N ->
   exists N, next_phot_bath_N redshift photE prop_phot_N emit_phot_N z_current z_next
             = Ret (redshift photE N (1 + z_current) (1 + z_next)) /\
             bath_N_before_redshift photE prop_phot_N emit_phot_N = Ret N).
Proof.
  intros Hlen Hagree.
  pose proof (split_xray_length emit_phot_N photE) as [Hb _].
  unfold next_phot_bath_N, bath_N_before_redshift.
  rewrite (setitem_forgets prop_phot_N prop_phot_N' i_lya 0 Hlen Hagree).
  split; [reflexivity|]. unfold setitem, arr_add. rewrite <- Hlen.
  destruct (i_lya <? length prop_phot_N)%nat eqn:Hi; cbn [bind].
  2: { split; [discriminate|]. apply Nat.ltb_ge in Hi. lia. }
  apply Nat.ltb_lt in Hi.
  set (emit_bath_N := fst (split_xray emit_phot_N photE)) in *.
  set (prop0 := firstn i_lya prop_phot_N' ++ 0 :: skipn (S i_lya) prop_phot_N').
  assert (Hp0 : length prop0 = length prop_phot_N).
  { unfold prop0. rewrite update_length; lia. }
  destruct (length prop0 =? length emit_bath_N)%nat eqn:Hshape.
  - apply Nat.eqb_eq in Hshape. split.
    + intros N [= <-].
      rewrite (nth_zip_with Qplus 0 0 0) by lia.
      unfold prop0. rewrite nth_update by lia. rewrite Nat.eqb_refl. ring.
    + intros _ _. eexists. cbn [bind]. split; reflexivity.
  - split; [discriminate|]. intros _ Hemit.
    apply Nat.eqb_neq in Hshape. lia.
Qed.

Lemma lya_bin_only_emitted_witness :
  next_phot_bath_N ex_redshift ex_photE ex_prop_phot_N ex_emit_phot_N 10 9
  = next_phot_bath_N ex_redshift ex_photE ex_prop_phot_N' ex_emit_phot_N 10 9 /\
  (forall N, bath_N_before_redshift ex_photE ex_prop_phot_N ex_emit_phot_N = Ret N ->
             nth i_lya N 0 == nth i_lya (fst (split_xray ex_emit_phot_N ex_photE)) 0) /\
  ((i_lya < length ex_prop_phot_N)%nat ->
   length ex_emit_phot_N = length ex_prop_phot_N ->
   exists N, next_phot_bath_N ex_redshift ex_photE ex_prop_phot_N ex_emit_phot_N 10 9
             = Ret (ex_redshift ex_photE N (1 + 10) (1 + 9)) /\
             bath_N_before_redshift ex_photE ex_prop_phot_N ex_emit_phot_N = Ret N).
Proof.
  apply (lya_bin_only_emitted ex_redshift ex_photE ex_prop_phot_N ex_prop_phot_N'
           ex_emit_phot_N 10 9).
  - reflexivity.
  - intros j Hj. unfold ex_prop_phot_N'.
    rewrite (nth_update ex_prop_phot_N 7 149 j) by (vm_compute; lia).
    destruct (j =? 149)%nat eqn:E; [|reflexivity].
    apply Nat.eqb_eq in E. contradiction.
Defined.

Lemma dot_same_length (a b : list Q) :
  length a = length b -> dot a b = Ret (fold_left Qplus (zip_with Qmult a b) 0).
Proof. intros Hlen. unfold dot. now rewrite Hlen, Nat.eqb_refl. Qed.

Lemma czeros_box_all_zeros (b : box) : all_zeros (czeros b).
Proof.
  unfold all_zeros. cbn. rewrite Forall_map. apply Forall_forall. intros p _.
  rewrite Forall_map. apply Forall_forall. intros r _.
  rewrite Forall_map. apply Forall_forall. intros a _. reflexivity.
Qed.

Lemma czeros_box_shape (b : box) : box_shape (czeros b) = box_shape b.
Proof.
  unfold box_shape. cbn. rewrite map_map. apply map_ext. intros p.
  rewrite map_map. apply map_ext. intros r. apply length_map.
Qed.

(** C9: the relative-energy box cached for a step is always made of finite
    numbers and no division is executed with a zero divisor: when the total
    emitted X-ray energy is zero the box is a box of zeros of the shape of
    [xray_eng_box] and nothing is divided; otherwise it is [xray_eng_box]
    divided by that total. *)
Theorem xray_rel_eng_box_no_zero_divisor (photE emit_xray_N : list Q) (xray_eng_box : box) :
  length photE = length emit_xray_N ->
  exists xray_tot_eng rel divisors,
    dot photE emit_xray_N = Ret xray_tot_eng /\
    xray_rel_eng_box photE emit_xray_N xray_eng_box = Ret (Finite rel, divisors) /\
    Forall (fun d => ~ d == 0) divisors /\
    (xray_tot_eng == 0 ->
       all_zeros rel /\ box_shape rel = box_shape xray_eng_box /\ divisors = []) /\
    (~ xray_tot_eng == 0 ->
       rel = map (map (map (fun a => a / xray_tot_eng))) xray_eng_box /\
       divisors = [xray_tot_eng]).
Proof.
  intros Hlen. unfold xray_rel_eng_box. rewrite (dot_same_length _ _ Hlen).
  cbn [bind]. set (tot := fold_left Qplus (zip_with Qmult photE emit_xray_N) 0).
  exists tot. unfold box_div.
  destruct (Qeq_bool tot 0) eqn:E.
  - apply Qeq_bool_iff in E.
    exists (czeros xray_eng_box), []. repeat split; auto.
    + apply czeros_box_all_zeros.
    + apply czeros_box_shape.
    + contradiction.
    + contradiction.
  - apply Qeq_bool_neq in E.
    exists (map (map (map (fun a => a / tot))) xray_eng_box), [tot].
    repeat split; auto; contradiction.
Qed.

Lemma xray_rel_eng_box_no_zero_divisor_witness :
  exists xray_tot_eng rel divisors,
    dot [100; 200] [0; 0] = Ret xray_tot_eng /\
    xray_rel_eng_box [100; 200] [0; 0] ex_box = Ret (Finite rel, divisors) /\
    Forall (fun d => ~ d == 0) divisors /\
    (xray_tot_eng == 0 ->
       all_zeros rel /\ box_shape rel = box_shape ex_box /\ divisors = []) /\
    (~ xray_tot_eng == 0 ->
       rel = map (map (map (fun a => a / xray_tot_eng))) ex_box /\
       divisors = [xray_tot_eng]).
Proof.
  apply (xray_rel_eng_box_no_zero_divisor [100; 200] [0; 0] ex_box).
  reflexivity.
Defined.

(** ** Arrays of numbers: the laws *)

#[export] Instance cell_laws_Q : CellLaws Q.
Proof.
  constructor; cbn; auto.
  - intros a. reflexivity.
  - intros a b Hab. now symmetry.
  - intros a b c Hab Hbc. now rewrite Hab.
  - intros a a' b b' Ha Hb. now rewrite Ha, Hb.
  - intros a a' w w' Ha Hw. now rewrite Ha, Hw.
  - intros a w Hw. rewrite Hw. ring.
  - intros a b w _ Hw. rewrite Hw. ring.
Qed.

Section ListLaws.

Context {V : Type} `{CellLaws V}.

Lemma Forall2_refl_of (R : V -> V -> Prop) :
  (forall a, R a a) -> forall l, Forall2 R l l.
Proof. intros HR l. induction l; constructor; auto. Qed.

Lemma Forall2_sym_of (R : V -> V -> Prop) :
  (forall a b, R a b -> R b a) -> forall l m, Forall2 R l m -> Forall2 R m l.
Proof. intros HR l m HF. induction HF; constructor; auto. Qed.

Lemma Forall2_trans_of (R : V -> V -> Prop) :
  (forall a b c, R a b -> R b c -> R a c) ->
  forall l m n, Forall2 R l m -> Forall2 R m n -> Forall2 R l n.
Proof.
  intros HR l m n HF. revert n.
  induction HF; intros n Hn; inversion Hn; subst; constructor; eauto.
Qed.

Lemma Forall2_impl_of (R S : V -> V -> Prop) :
  (forall a b, R a b -> S a b) -> forall l m, Forall2 R l m -> Forall2 S l m.
Proof. intros HRS l m HF. induction HF; constructor; auto. Qed.

Lemma zip_with_cadd_proper (a a' b b' : list V) :
  Forall2 ceq a a' -> Forall2 ceq b b' ->
  Forall2 ceq (zip_with cadd a b) (zip_with cadd a' b').
Proof.
  intros Ha. revert b b'.
  induction Ha as [|x x' a a' Hx Ha IH]; intros b b' Hb; cbn; [constructor|].
  destruct Hb as [|y y' b b' Hy Hb]; constructor.
  - now apply cadd_proper.
  - now apply IH.
Qed.

Lemma map_cmul_proper (a a' : list V) (w w' : Q) :
  Forall2 ceq a a' -> w == w' ->
  Forall2 ceq (map (fun v => cmul v w) a) (map (fun v => cmul v w') a').
Proof.
  intros Ha Hw. induction Ha; cbn; constructor; auto.
  now apply cmul_proper.
Qed.

Lemma map_cmul_shape (a : list V) (w : Q) :
  Forall2 cshape (map (fun v => cmul v w) a) a.
Proof. induction a; cbn; constructor; auto. apply cmul_shape. Qed.

Lemma map_cmul_one (a : list V) (w : Q) :
  w == 1 -> Forall2 ceq (map (fun v => cmul v w) a) a.
Proof. intros Hw. induction a; cbn; constructor; auto. now apply cmul_one. Qed.

Lemma zip_with_cadd_zero_r (a b : list V) (w : Q) :
  Forall2 cshape a b -> w == 0 ->
  Forall2 ceq (zip_with cadd a (map (fun v => cmul v w) b)) a.
Proof.
  intros Hs Hw. induction Hs; cbn; constructor; auto.
  now apply cadd_zero_r.
Qed.

#[export] Instance cell_laws_list : CellLaws (list V).
Proof.
  constructor; cbn.
  - apply Forall2_refl_of, ceq_refl.
  - apply Forall2_sym_of, ceq_sym.
  - apply Forall2_trans_of, ceq_trans.
  - apply Forall2_refl_of, cshape_refl.
  - apply Forall2_sym_of, cshape_sym.
  - apply Forall2_trans_of, cshape_trans.
  - apply Forall2_impl_of, ceq_cshape.
  - apply zip_with_cadd_proper.
  - apply map_cmul_proper.
  - apply map_cmul_shape.
  - apply map_cmul_one.
  - apply zip_with_cadd_zero_r.
Qed.

End ListLaws.

(** ** Indexing *)

Lemma clamp_index_nat (n i : nat) :
  (i < n)%nat -> clamp_index n (Z.of_nat i) = i.
Proof.
  intros Hi. unfold clamp_index.
  destruct (Z.of_nat i <? 0)%Z eqn:E; [apply Z.ltb_lt in E; lia|]. lia.
Qed.

(** An index one past the end is clamped to the last element. *)
Lemma clamp_index_end (n : nat) :
  (0 < n)%nat -> clamp_index n (Z.of_nat n) = (n - 1)%nat.
Proof.
  intros Hn. unfold clamp_index.
  destruct (Z.of_nat n <? 0)%Z eqn:E; [apply Z.ltb_lt in E; lia|]. lia.
Qed.

Lemma getitem_nth_error {V : Type} (l : list V) (i : nat) (v : V) :
  nth_error l i = Some v -> getitem l (Z.of_nat i) = Ret v.
Proof.
  intros Hv. assert (Hi : (i < length l)%nat).
  { apply nth_error_Some. congruence. }
  unfold getitem. destruct l as [|v0 l]; [simpl in Hi; lia|].
  rewrite clamp_index_nat by assumption.
  f_equal. now apply nth_error_nth.
Qed.

Lemma getitem_nth (l : list Q) (i : nat) :
  (i < length l)%nat -> getitem l (Z.of_nat i) = Ret (nth i l 0).
Proof.
  intros Hi. apply getitem_nth_error. now apply nth_error_nth'.
Qed.

Lemma getitem_end (l : list Q) :
  l <> [] -> getitem l (Z.of_nat (length l)) = Ret (nth (length l - 1) l 0).
Proof.
  intros Hl. unfold getitem. destruct l as [|v0 l]; [contradiction|].
  rewrite clamp_index_end by (simpl; lia).
  f_equal. apply nth_indep. simpl. lia.
Qed.

(** ** Searching from the right *)

Lemma searchsorted_right_le (xp : list Q) (x : Q) :
  forall i, (i < searchsorted_right xp x)%nat -> nth i xp 0 <= x.
Proof.
  induction xp as [|y xp IH]; simpl; intros i Hi; [lia|].
  destruct (Qle_bool y x) eqn:G; [|lia].
  destruct i as [|i]; [now apply Qle_bool_iff | apply IH; lia].
Qed.

Lemma searchsorted_right_gt (xp : list Q) (x : Q) :
  (searchsorted_right xp x < length xp)%nat ->
  x < nth (searchsorted_right xp x) xp 0.
Proof.
  induction xp as [|y xp IH]; simpl; intros Hlen; [lia|].
  destruct (Qle_bool y x) eqn:G.
  - apply IH. lia.
  - now apply Qle_bool_false.
Qed.

Lemma searchsorted_right_bound (xp : list Q) (x : Q) :
  (searchsorted_right xp x <= length xp)%nat.
Proof.
  induction xp as [|y xp IH]; simpl; [lia|].
  destruct (Qle_bool y x); lia.
Qed.

(** On a sorted array the search passes every element that is not above
    [x]. *)
Lemma searchsorted_right_passes (xp : list Q) (x : Q) :
  StronglySorted Qle xp ->
  forall i, (i < length xp)%nat -> nth i xp 0 <= x ->
            (S i <= searchsorted_right xp x)%nat.
Proof.
  induction 1 as [|y xp Hs IH Hall]; simpl; intros i Hi Hle; [lia|].
  assert (Hy : y <= x).
  { destruct i as [|i]; [exact Hle|].
    rewrite Forall_forall in Hall.
    apply Qle_trans with (nth i xp 0); [|exact Hle].
    apply Hall, nth_In. lia. }
  apply Qle_bool_iff in Hy. rewrite Hy.
  destruct i as [|i]; [lia|].
  apply le_n_S, IH; [lia | exact Hle].
Qed.

Lemma StronglySorted_lt_le (xp : list Q) :
  StronglySorted Qlt xp -> StronglySorted Qle xp.
Proof.
  induction 1 as [|y xp Hs IH Hall]; constructor; [assumption|].
  revert Hall. apply Forall_impl. intros a. apply Qlt_le_weak.
Qed.

Lemma StronglySorted_nth_lt (xp : list Q) :
  StronglySorted Qlt xp ->
  forall i j, (i < j)%nat -> (j < length xp)%nat -> nth i xp 0 < nth j xp 0.
Proof.
  induction 1 as [|y xp Hs IH Hall]; simpl; intros i j Hij Hj; [lia|].
  destruct j as [|j]; [lia|]. destruct i as [|i].
  - rewrite Forall_forall in Hall. apply Hall, nth_In. lia.
  - apply IH; lia.
Qed.

Lemma StronglySorted_nth_le (xp : list Q) :
  StronglySorted Qle xp ->
  forall i j, (i <= j)%nat -> (j < length xp)%nat -> nth i xp 0 <= nth j xp 0.
Proof.
  induction 1 as [|y xp Hs IH Hall]; simpl; intros i j Hij Hj; [lia|].
  destruct j as [|j]; destruct i as [|i]; try lia.
  - apply Qle_refl.
  - rewrite Forall_forall in Hall. apply Hall, nth_In. lia.
  - apply IH; lia.
Qed.

(** At a grid point of a strictly increasing abscissa the search stops just
    after it. *)
Lemma searchsorted_right_grid (xp : list Q) (i : nat) :
  StronglySorted Qlt xp -> (i < length xp)%nat ->
  searchsorted_right xp (nth i xp 0) = S i.
Proof.
  intros Hs Hi. apply Nat.le_antisymm.
  - destruct (Nat.lt_ge_cases (S i) (searchsorted_right xp (nth i xp 0)))
      as [Hgt|Hle]; [|exact Hle].
    pose proof (searchsorted_right_bound xp (nth i xp 0)) as Hb.
    pose proof (searchsorted_right_le xp (nth i xp 0) (S i) Hgt) as Hle.
    pose proof (StronglySorted_nth_lt xp Hs i (S i)) as Hlt.
    specialize (Hlt ltac:(lia) ltac:(lia)). lra.
  - apply searchsorted_right_passes;
      [now apply StronglySorted_lt_le | assumption | apply Qle_refl].
Qed.

(** ** The weights of the interpolation *)

Lemma fdiv_finite (a b : Q) : ~ b == 0 -> fdiv a b = Finite (a / b).
Proof.
  intros Hb. unfold fdiv. destruct (Qeq_bool b 0) eqn:E; [|reflexivity].
  apply Qeq_bool_iff in E. contradiction.
Qed.

Lemma fdiv_zero (a b : Q) : b == 0 -> fdiv a b = NonFinite.
Proof.
  intros Hb. unfold fdiv. apply Qeq_bool_iff in Hb. now rewrite Hb.
Qed.

(** When the search stops strictly inside the abscissa, at [S k]. *)
Lemma left_weight_inside (xp : list Q) (x : Q) (k : nat) :
  searchsorted_right xp x = S k -> (S k < length xp)%nat ->
  left_index xp x = Z.of_nat k /\
  left_weight xp x
  = Ret (fdiv (nth (S k) xp 0 - x) (nth (S k) xp 0 - nth k xp 0)) /\
  nth k xp 0 <= x < nth (S k) xp 0.
Proof.
  intros Hk Hlen.
  assert (Hil : left_index xp x = Z.of_nat k).
  { unfold left_index. rewrite Hk. lia. }
  split; [exact Hil|]. split.
  - unfold left_weight. rewrite Hil.
    replace (Z.of_nat k + 1)%Z with (Z.of_nat (S k)) by lia.
    rewrite !getitem_nth by lia. reflexivity.
  - split.
    + apply searchsorted_right_le. lia.
    + rewrite <- Hk. apply searchsorted_right_gt. lia.
Qed.

(** When every element is passed: the right neighbour is read past the
    end, the two abscissa values coincide and the weight is 0/0. *)
Lemma left_weight_past_end (xp : list Q) (x : Q) :
  xp <> [] -> searchsorted_right xp x = length xp ->
  left_index xp x = (Z.of_nat (length xp) - 1)%Z /\
  left_weight xp x = Ret NonFinite.
Proof.
  intros Hne Hk. assert (Hlen : (0 < length xp)%nat).
  { destruct xp; [contradiction | simpl; lia]. }
  assert (Hil : left_index xp x = (Z.of_nat (length xp) - 1)%Z).
  { unfold left_index. now rewrite Hk. }
  split; [exact Hil|].
  unfold left_weight. rewrite Hil.
  replace (Z.of_nat (length xp) - 1 + 1)%Z with (Z.of_nat (length xp)) by lia.
  replace (Z.of_nat (length xp) - 1)%Z with (Z.of_nat (length xp - 1)) by lia.
  rewrite getitem_end by assumption.
  rewrite getitem_nth by lia. cbn [bind].
  rewrite fdiv_zero; [reflexivity | ring].
Qed.

(** ** Interpolation at a grid point *)

Section GridPoints.

Context {V : Type} `{CellLaws V}.

Lemma cadd_absorb (X a b : V) (w : Q) :
  ceq X a -> cshape a b -> w == 0 -> ceq (cadd X (cmul b w)) a.
Proof.
  intros HX Hs Hw. apply ceq_trans with (cadd a (cmul b w)).
  - apply cadd_proper; [exact HX | apply ceq_refl].
  - now apply cadd_zero_r.
Qed.

Lemma cshape_cmul_r (a b : V) (w : Q) : cshape a b -> cshape a (cmul b w).
Proof.
  intros Hs. apply cshape_trans with b; [exact Hs|].
  apply cshape_sym, cmul_shape.
Qed.

(** The weight at a grid point that is not the last one is 1. *)
Lemma left_weight_grid (xp : list Q) (i : nat) :
  StronglySorted Qlt xp -> (S i < length xp)%nat ->
  left_index xp (nth i xp 0) = Z.of_nat i /\
  exists wl, left_weight xp (nth i xp 0) = Ret (Finite wl) /\ wl == 1.
Proof.
  intros Hs Hi.
  assert (Hk : searchsorted_right xp (nth i xp 0) = S i).
  { apply searchsorted_right_grid; [assumption | lia]. }
  destruct (left_weight_inside xp (nth i xp 0) i Hk Hi) as (Hil & Hw & _).
  split; [exact Hil|].
  pose proof (StronglySorted_nth_lt xp Hs i (S i) ltac:(lia) Hi) as Hlt.
  rewrite fdiv_finite in Hw by lra.
  eexists. split; [exact Hw|]. field. lra.
Qed.

(** [interp1d] returns the stored value at every grid point but the last. *)
Lemma interp1d_grid (fp : list V) (xp : list Q) (i : nat) (v v' : V) :
  StronglySorted Qlt xp -> (S i < length xp)%nat ->
  nth_error fp i = Some v -> nth_error fp (S i) = Some v' -> cshape v v' ->
  oeq (feq ceq) (interp1d fp xp (nth i xp 0)) (Ret (Finite v)).
Proof.
  intros Hs Hi Hv Hv' Hshape.
  destruct (left_weight_grid xp i Hs Hi) as (Hil & wl & Hw & Hone).
  unfold interp1d. rewrite Hil, Hw. cbn [bind].
  replace (Z.of_nat i + 1)%Z with (Z.of_nat (S i)) by lia.
  rewrite (getitem_nth_error fp i v Hv), (getitem_nth_error fp (S i) v' Hv').
  cbn [bind oeq feq].
  apply cadd_absorb; [now apply cmul_one | assumption | rewrite Hone; ring].
Qed.

(** [interp2d] returns the stored value at every grid point that is not on
    the last line of either axis. *)
Lemma interp2d_point_grid (fp : list (list V)) (x0p x1p : list Q) (i j : nat)
  (r0 r1 : list V) (f00 f01 f10 f11 : V) :
  StronglySorted Qlt x0p -> StronglySorted Qlt x1p ->
  (S i < length x0p)%nat -> (S j < length x1p)%nat ->
  nth_error fp i = Some r0 -> nth_error fp (S i) = Some r1 ->
  nth_error r0 j = Some f00 -> nth_error r0 (S j) = Some f01 ->
  nth_error r1 j = Some f10 -> nth_error r1 (S j) = Some f11 ->
  cshape f00 f01 -> cshape f00 f10 -> cshape f00 f11 ->
  oeq (feq ceq) (interp2d_point fp x0p x1p (nth i x0p 0, nth j x1p 0))
      (Ret (Finite f00)).
Proof.
  intros Hs0 Hs1 Hi Hj Hr0 Hr1 H00 H01 H10 H11 S01 S10 S11.
  destruct (left_weight_grid x0p i Hs0 Hi) as (Hil0 & wl0 & Hw0 & Hone0).
  destruct (left_weight_grid x1p j Hs1 Hj) as (Hil1 & wl1 & Hw1 & Hone1).
  unfold interp2d_point, getitem2. rewrite Hil0, Hil1, Hw0, Hw1. cbn [bind].
  replace (Z.of_nat i + 1)%Z with (Z.of_nat (S i)) by lia.
  replace (Z.of_nat j + 1)%Z with (Z.of_nat (S j)) by lia.
  rewrite (getitem_nth_error fp i r0 Hr0), (getitem_nth_error fp (S i) r1 Hr1).
  cbn [bind].
  rewrite (getitem_nth_error r0 j f00 H00), (getitem_nth_error r0 (S j) f01 H01),
    (getitem_nth_error r1 j f10 H10), (getitem_nth_error r1 (S j) f11 H11).
  cbn [bind oeq feq].
  apply cadd_absorb; [| now apply cshape_cmul_r | rewrite Hone1; ring].
  apply cadd_absorb; [| now apply cshape_cmul_r | rewrite Hone1; ring].
  apply ceq_trans with (cadd f00 (cmul f10 (1 - wl0))).
  - apply cadd_proper.
    + apply ceq_trans with (cmul f00 wl0); now apply cmul_one.
    + now apply cmul_one.
  - apply cadd_zero_r; [assumption | rewrite Hone0; ring].
Qed.

(** At the last grid point the weight is 0/0: [interp1d] returns NaNs. *)
Lemma interp1d_last_grid (fp : list V) (xp : list Q) :
  StronglySorted Qle xp -> xp <> [] -> fp <> [] ->
  interp1d fp xp (nth (length xp - 1) xp 0) = Ret NonFinite.
Proof.
  intros Hs Hxp Hfp.
  assert (Hlen : (0 < length xp)%nat).
  { destruct xp; [contradiction | simpl; lia]. }
  assert (Hk : searchsorted_right xp (nth (length xp - 1) xp 0) = length xp).
  { apply Nat.le_antisymm; [apply searchsorted_right_bound|].
    replace (length xp) with (S (length xp - 1)) at 1 by lia.
    apply searchsorted_right_passes; [assumption | lia | apply Qle_refl]. }
  destruct (left_weight_past_end xp _ Hxp Hk) as [_ Hw].
  unfold interp1d. rewrite Hw. cbn [bind].
  unfold getitem. destruct fp as [|v0 fp]; [contradiction|]. reflexivity.
Qed.

End GridPoints.

(** ** Minimum and maximum of an abscissa *)

Lemma Qmin_cases (x y : Q) : Qmin x y = x \/ Qmin x y = y.
Proof.
  unfold Qmin, GenericMinMax.gmin. destruct (x ?= y); auto.
Qed.

Lemma Qmax_cases (x y : Q) : Qmax x y = x \/ Qmax x y = y.
Proof.
  unfold Qmax, GenericMinMax.gmax. destruct (x ?= y); auto.
Qed.

Lemma fold_min_spec (l : list Q) : forall x,
  In (fold_left Qmin l x) (x :: l) /\ Forall (Qle (fold_left Qmin l x)) (x :: l).
Proof.
  induction l as [|y l IH]; intros x; cbn [fold_left].
  - split; [now left | constructor; [apply Qle_refl | constructor]].
  - destruct (IH (Qmin x y)) as [Hin Hall].
    inversion Hall as [|? ? Hm Hrest]; subst. split.
    + destruct Hin as [Heq|Hin]; [|now right; right].
      rewrite <- Heq. destruct (Qmin_cases x y) as [->| ->]; [now left|].
      right; now left.
    + constructor; [|constructor]; try assumption.
      * apply Qle_trans with (Qmin x y); [assumption | apply Q.le_min_l].
      * apply Qle_trans with (Qmin x y); [assumption | apply Q.le_min_r].
Qed.

Lemma fold_max_spec (l : list Q) : forall x,
  In (fold_left Qmax l x) (x :: l) /\
  Forall (fun y => y <= fold_left Qmax l x) (x :: l).
Proof.
  induction l as [|y l IH]; intros x; cbn [fold_left].
  - split; [now left | constructor; [apply Qle_refl | constructor]].
  - destruct (IH (Qmax x y)) as [Hin Hall].
    inversion Hall as [|? ? Hm Hrest]; subst. split.
    + destruct Hin as [Heq|Hin]; [|now right; right].
      rewrite <- Heq. destruct (Qmax_cases x y) as [->| ->]; [now left|].
      right; now left.
    + constructor; [|constructor]; try assumption.
      * apply Qle_trans with (Qmax x y); [apply Q.le_max_l | assumption].
      * apply Qle_trans with (Qmax x y); [apply Q.le_max_r | assumption].
Qed.

Lemma amin_spec (xp : list Q) (lo : Q) :
  amin xp = Ret lo -> In lo xp /\ Forall (Qle lo) xp.
Proof.
  destruct xp as [|x xp]; [discriminate|]. intros [= <-]. apply fold_min_spec.
Qed.

Lemma amax_spec (xp : list Q) (hi : Q) :
  amax xp = Ret hi -> In hi xp /\ Forall (fun y => y <= hi) xp.
Proof.
  destruct xp as [|x xp]; [discriminate|]. intros [= <-]. apply fold_max_spec.
Qed.

Lemma amin_amax_nonempty (xp : list Q) :
  xp <> [] -> exists lo hi, amin xp = Ret lo /\ amax xp = Ret hi.
Proof.
  destruct xp as [|x xp]; [contradiction|]. intros _.
  eexists. eexists. split; reflexivity.
Qed.

Lemma good_absc_nonempty (xp : list Q) : good_absc xp -> xp <> [].
Proof. intros [_ Hlen] ->. simpl in Hlen. lia. Qed.

(** On a sorted abscissa the minimum is the first point and the maximum
    the last one. *)
Lemma amin_amax_sorted (xp : list Q) (lo hi : Q) :
  StronglySorted Qle xp -> amin xp = Ret lo -> amax xp = Ret hi ->
  nth 0 xp 0 <= lo /\ hi <= nth (length xp - 1) xp 0.
Proof.
  intros Hs Hlo Hhi.
  destruct (amin_spec xp lo Hlo) as [Hin_lo _].
  destruct (amax_spec xp hi Hhi) as [Hin_hi _].
  apply (In_nth _ _ 0) in Hin_lo as (i & Hi & <-).
  apply (In_nth _ _ 0) in Hin_hi as (j & Hj & <-).
  split; apply StronglySorted_nth_le; auto; lia.
Qed.

(** ** The bound check *)

Lemma v_is_within_eq (v absc : list Q) (lo hi : Q) :
  amin absc = Ret lo -> amax absc = Ret hi ->
  v_is_within v absc = Ret (within_b lo hi v).
Proof.
  intros Hlo Hhi. unfold v_is_within, within_b. rewrite Hlo. cbn [bind].
  destruct (forallb (fun x => Qle_bool lo x) v); [|reflexivity].
  rewrite Hhi. reflexivity.
Qed.

Lemma within_b_true (absc v : list Q) (lo hi : Q) :
  amin absc = Ret lo -> amax absc = Ret hi ->
  within_b lo hi v = true <-> Forall (within_range absc) v.
Proof.
  intros Hlo Hhi. unfold within_b.
  rewrite andb_true_iff, !forallb_forall, Forall_forall. split.
  - intros [H1 H2] x Hx. exists lo, hi. repeat split; auto.
    + apply Qle_bool_iff. now apply H1.
    + apply Qle_bool_iff. now apply H2.
  - intros Hall. split; intros x Hx;
      destruct (Hall x Hx) as (lo' & hi' & Hlo' & Hhi' & Hl & Hh);
      rewrite Hlo in Hlo'; rewrite Hhi in Hhi';
      injection Hlo' as <-; injection Hhi' as <-;
      now apply Qle_bool_iff.
Qed.

(** The first statement of [__call__] under the error policy. *)
Lemma check_error_policy (a : Abscs) (rs : Q) (x_s nBs_s : list Q) :
  absc_rs a <> [] -> absc_x a <> [] -> absc_nBs a <> [] ->
  (all_within a rs x_s nBs_s /\
   check_or_clip a "error" rs x_s nBs_s = Ret (rs, x_s, nBs_s)) \/
  (~ all_within a rs x_s nBs_s /\
   exists axis, check_or_clip a "error" rs x_s nBs_s = Raise (OutOfBounds axis)).
Proof.
  intros Hrs Hx Hn.
  destruct (amin_amax_nonempty _ Hrs) as (lo_r & hi_r & Hlo_r & Hhi_r).
  destruct (amin_amax_nonempty _ Hx) as (lo_x & hi_x & Hlo_x & Hhi_x).
  destruct (amin_amax_nonempty _ Hn) as (lo_n & hi_n & Hlo_n & Hhi_n).
  pose proof (within_b_true (absc_rs a) [rs] _ _ Hlo_r Hhi_r) as Wr.
  pose proof (within_b_true (absc_x a) x_s _ _ Hlo_x Hhi_x) as Wx.
  pose proof (within_b_true (absc_nBs a) nBs_s _ _ Hlo_n Hhi_n) as Wn.
  unfold check_or_clip. cbn [String.eqb Ascii.eqb Bool.eqb andb].
  rewrite (v_is_within_eq [rs] _ _ _ Hlo_r Hhi_r),
    (v_is_within_eq x_s _ _ _ Hlo_x Hhi_x),
    (v_is_within_eq nBs_s _ _ _ Hlo_n Hhi_n).
  cbn [bind]. unfold all_within.
  destruct (within_b lo_r hi_r [rs]) eqn:Er; cbn [negb].
  2: { right. split; [|eauto]. intros (Hw & _ & _).
       assert (Hall : Forall (within_range (absc_rs a)) [rs]) by (constructor; auto).
       apply Wr in Hall. congruence. }
  destruct (within_b lo_x hi_x x_s) eqn:Ex; cbn [negb].
  2: { right. split; [|eauto]. intros (_ & Hw & _). apply Wx in Hw. congruence. }
  destruct (within_b lo_n hi_n nBs_s) eqn:En; cbn [negb].
  2: { right. split; [|eauto]. intros (_ & _ & Hw). apply Wn in Hw. congruence. }
  left. split; [|reflexivity]. repeat split.
  - apply proj1 in Wr. specialize (Wr eq_refl). now inversion Wr.
  - now apply Wx.
  - now apply Wn.
Qed.

(** ** Past the first statement no out-of-bounds error is raised *)

Lemma not_oob_ret {A : Type} (a : A) : not_oob (Ret a).
Proof. intros axis. discriminate. Qed.

Lemma not_oob_raise {A : Type} (e : exn) :
  (forall axis, e <> OutOfBounds axis) -> not_oob (@Raise A e).
Proof. intros He axis [= Heq]. exact (He axis Heq). Qed.

Lemma not_oob_bind {A B : Type} (m : outcome A) (k : A -> outcome B) :
  not_oob m -> (forall a, not_oob (k a)) -> not_oob (bind m k).
Proof.
  intros Hm Hk axis. destruct m as [a|e]; cbn [bind].
  - apply Hk.
  - intros [= ->]. now apply (Hm axis).
Qed.

Lemma not_oob_mapM {A B : Type} (g : A -> outcome B) (l : list A) :
  (forall a, not_oob (g a)) -> not_oob (mapM g l).
Proof.
  intros Hg. induction l as [|a l IH]; cbn [mapM].
  - apply not_oob_ret.
  - apply not_oob_bind; [apply Hg|]. intros b.
    apply not_oob_bind; [apply IH|]. intros bs. apply not_oob_ret.
Qed.

Lemma not_oob_getitem {V : Type} (l : list V) (i : Z) : not_oob (getitem l i).
Proof.
  unfold getitem. destruct l; [apply not_oob_raise; discriminate | apply not_oob_ret].
Qed.

Ltac oob_step :=
  first [ apply not_oob_ret
        | apply not_oob_raise; discriminate
        | apply not_oob_getitem
        | apply not_oob_bind; [|intros ?] ].

Lemma not_oob_left_weight (xp : list Q) (x : Q) : not_oob (left_weight xp x).
Proof. unfold left_weight. repeat oob_step. Qed.

Lemma not_oob_interp1d {V : Type} `{Cell V} (fp : list V) (xp : list Q) (x : Q) :
  not_oob (interp1d fp xp x).
Proof.
  unfold interp1d. apply not_oob_bind; [apply not_oob_left_weight|].
  intros w. repeat oob_step.
Qed.

Lemma not_oob_interp2d_point {V : Type} `{Cell V}
  (fp : list (list V)) (x0p x1p : list Q) (x01 : Q * Q) :
  not_oob (interp2d_point fp x0p x1p x01).
Proof.
  unfold interp2d_point, getitem2. destruct x01 as [x0 x1].
  apply not_oob_bind; [apply not_oob_left_weight|]. intros w0.
  apply not_oob_bind; [apply not_oob_left_weight|]. intros w1.
  repeat oob_step.
Qed.

Lemma not_oob_interp2d_f {V : Type} `{Cell V}
  (fp : fval (list (list V))) (x0p x1p : list Q) (x01 : list (Q * Q)) :
  not_oob (interp2d_f fp x0p x1p x01).
Proof.
  destruct fp as [d|]; cbn [interp2d_f]; [|apply not_oob_ret].
  apply not_oob_mapM. intros q. apply not_oob_interp2d_point.
Qed.

Lemma not_oob_einsum_e (a : Abscs) (in_spec : list Q) (d : tensor5) :
  not_oob (einsum_e a in_spec d).
Proof.
  unfold einsum_e. apply not_oob_mapM. intros slab.
  destruct (length in_spec =? length slab)%nat; oob_step.
Qed.

Lemma not_oob_in_spec_sum (bi : BatchInterpolator) (in_spec : list Q) :
  not_oob (in_spec_sum bi in_spec).
Proof.
  unfold in_spec_sum. destruct (same_spec in_spec (fixed_in_spec bi)).
  - destruct (fixed_in_spec_data bi); oob_step.
  - apply not_oob_einsum_e.
Qed.

Lemma not_oob_stack (a b : list Q) : not_oob (stack a b).
Proof. unfold stack. destruct (length a =? length b)%nat; oob_step. Qed.

Lemma not_oob_array_split {A : Type} (l : list A) (n : nat) :
  not_oob (array_split l n).
Proof. unfold array_split. destruct n; oob_step. Qed.

Lemma not_oob_dot_rows (z w : list Q) (rows : list (fval (list Q))) :
  not_oob (dot_rows z w rows).
Proof. unfold dot_rows. destruct (length w =? length rows)%nat; oob_step. Qed.

Lemma not_oob_sum_batches (a : Abscs) (data_at_rs : fval tensor3)
  (wb : option (list (list Q))) (batches : list (list (Q * Q))) :
  forall i_batch result,
    not_oob (sum_batches a data_at_rs wb i_batch batches result).
Proof.
  induction batches as [|b batches IH]; intros i_batch result; cbn [sum_batches].
  - apply not_oob_ret.
  - apply not_oob_bind; [apply not_oob_interp2d_f|]. intros rows.
    apply not_oob_bind; [|intros term; apply IH].
    destruct wb as [wb|]; [|apply not_oob_ret].
    destruct (nth_error wb i_batch); [apply not_oob_dot_rows | oob_step].
Qed.

Lemma not_oob_call_from (bi : BatchInterpolator) (in_spec_data : tensor4)
  (rs : Q) (nBs_s x_s : list Q) (sum_result : bool)
  (sum_weight : option (list Q)) (sum_batch_size : positive) :
  not_oob (call_from bi in_spec_data rs nBs_s x_s sum_result sum_weight
                     sum_batch_size).
Proof.
  unfold call_from. apply not_oob_bind; [apply not_oob_interp1d|].
  intros data_at_rs. destruct sum_result; cbn [negb].
  - apply not_oob_bind.
    { destruct sum_weight as [w|]; [|apply not_oob_ret].
      apply not_oob_bind; [apply not_oob_array_split | intros wb; apply not_oob_ret]. }
    intros wb. apply not_oob_bind; [apply not_oob_stack|]. intros q.
    apply not_oob_bind; [apply not_oob_array_split|]. intros batches.
    apply not_oob_bind; [apply not_oob_sum_batches | intros v; apply not_oob_ret].
  - apply not_oob_bind; [apply not_oob_stack|]. intros q.
    apply not_oob_bind; [apply not_oob_interp2d_f | intros rows; apply not_oob_ret].
Qed.

(** An out-of-bounds error of [__call__] comes from its first statement. *)
Lemma call_oob_iff (bi : BatchInterpolator) (rs : Q) (in_spec nBs_s x_s : list Q)
  (sum_result : bool) (sum_weight : option (list Q)) (sum_batch_size : positive)
  (action : string) (axis : string) :
  call bi rs in_spec nBs_s x_s sum_result sum_weight sum_batch_size action
  = Raise (OutOfBounds axis)
  <-> check_or_clip (abscs bi) action rs x_s nBs_s = Raise (OutOfBounds axis).
Proof.
  unfold call.
  destruct (check_or_clip (abscs bi) action rs x_s nBs_s) as [[[rs' x_s'] nBs_s']|e];
    cbn [bind]; [|split; intros [= ->]; reflexivity].
  split; [|discriminate]. intros Hcall. exfalso. revert Hcall.
  apply not_oob_bind; [apply not_oob_in_spec_sum|].
  intros d. apply not_oob_call_from.
Qed.

(** ** The clip policy *)

Lemma clip_in_bounds (x lo hi : Q) : lo <= hi -> lo <= clip x lo hi <= hi.
Proof.
  intros Hle. unfold clip. split.
  - apply Q.min_glb; [apply Q.le_max_r | assumption].
  - apply Q.le_min_r.
Qed.

Lemma factor_gt_1 : 1 < factor.
Proof. reflexivity. Qed.

Lemma clip_bounds_friendly (absc : list Q) :
  clip_friendly absc ->
  exists lo hi,
    amin absc = Ret lo /\ amax absc = Ret hi /\
    clip_bounds absc = Ret (lo * factor, hi / factor) /\
    lo < lo * factor /\ lo * factor <= hi / factor /\ hi / factor < hi.
Proof.
  intros (lo & hi & Hlo & Hhi & Hpos & Hwide).
  exists lo, hi. unfold clip_bounds. rewrite Hlo, Hhi. cbn [bind].
  pose proof factor_gt_1 as Hf.
  assert (Hlo' : lo < lo * factor).
  { setoid_replace lo with (lo * 1) at 1 by ring.
    apply Qmult_lt_l; assumption. }
  assert (Hh : hi == hi / factor * factor) by (field; lra).
  assert (Hhpos : 0 < hi / factor) by lra.
  assert (Hhi' : hi / factor < hi).
  { rewrite Hh at 2. setoid_replace (hi / factor) with (hi / factor * 1) at 1 by ring.
    apply Qmult_lt_l; assumption. }
  repeat split; assumption.
Qed.

Lemma clip_strictly_within (absc : list Q) (lo hi : Q) (x : Q) :
  amin absc = Ret lo -> amax absc = Ret hi ->
  lo < lo * factor -> lo * factor <= hi / factor -> hi / factor < hi ->
  strictly_within absc (clip x (lo * factor) (hi / factor)).
Proof.
  intros Hlo Hhi H1 H2 H3. exists lo, hi. repeat split; auto;
    destruct (clip_in_bounds x _ _ H2); lra.
Qed.

(** The first statement of [__call__] under the clip policy, on abscissas
    where the nudge moves inward. *)
Lemma check_clip_policy (a : Abscs) (rs : Q) (x_s nBs_s : list Q) :
  clip_friendly (absc_rs a) -> clip_friendly (absc_x a) ->
  clip_friendly (absc_nBs a) ->
  exists rs' x_s' nBs_s',
    check_or_clip a "clip" rs x_s nBs_s = Ret (rs', x_s', nBs_s') /\
    strictly_within (absc_rs a) rs' /\
    Forall (strictly_within (absc_x a)) x_s' /\
    Forall (strictly_within (absc_nBs a)) nBs_s' /\
    length x_s' = length x_s /\ length nBs_s' = length nBs_s.
Proof.
  intros Fr Fx Fn.
  destruct (clip_bounds_friendly _ Fr) as (lo_r & hi_r & Hlo_r & Hhi_r & Hb_r & R1 & R2 & R3).
  destruct (clip_bounds_friendly _ Fx) as (lo_x & hi_x & Hlo_x & Hhi_x & Hb_x & X1 & X2 & X3).
  destruct (clip_bounds_friendly _ Fn) as (lo_n & hi_n & Hlo_n & Hhi_n & Hb_n & N1 & N2 & N3).
  unfold check_or_clip. cbn [String.eqb Ascii.eqb Bool.eqb andb].
  rewrite Hb_r, Hb_x, Hb_n. cbn [bind fst snd].
  eexists. eexists. eexists. split; [reflexivity|].
  unfold clip_all. cbn [fst snd]. rewrite !length_map.
  repeat split.
  - now apply clip_strictly_within.
  - apply Forall_map, Forall_forall. intros x _. now apply clip_strictly_within.
  - apply Forall_map, Forall_forall. intros x _. now apply clip_strictly_within.
Qed.

(** The clip policy never raises the out-of-bounds error. *)
Lemma check_clip_not_oob (a : Abscs) (rs : Q) (x_s nBs_s : list Q) :
  not_oob (check_or_clip a "clip" rs x_s nBs_s).
Proof.
  unfold check_or_clip. cbn [String.eqb Ascii.eqb Bool.eqb andb].
  assert (Hb : forall absc, not_oob (clip_bounds absc)).
  { intros absc. unfold clip_bounds, amin, amax.
    destruct absc; cbn [bind]; oob_step. }
  repeat (apply not_oob_bind; [apply Hb | intros ?]). apply not_oob_ret.
Qed.

(** ** Finite results inside the abscissa range *)

Lemma clamp_index_lt (n : nat) (i : Z) : (0 < n)%nat -> (clamp_index n i < n)%nat.
Proof.
  intros Hn. unfold clamp_index. destruct (i <? 0)%Z; lia.
Qed.

Lemma getitem_ret {V : Type} (l : list V) (i : Z) :
  l <> [] -> exists v, getitem l i = Ret v /\ In v l.
Proof.
  intros Hl. unfold getitem. destruct l as [|v0 l]; [contradiction|].
  eexists. split; [reflexivity|].
  apply nth_In. apply clamp_index_lt. simpl. lia.
Qed.

(** For [lo <= x < hi] on a sorted abscissa the search stops strictly
    inside and the weight is a number. *)
Lemma left_weight_finite (xp : list Q) (x lo hi : Q) :
  StronglySorted Qle xp -> amin xp = Ret lo -> amax xp = Ret hi ->
  lo <= x -> x < hi ->
  exists wl, left_weight xp x = Ret (Finite wl).
Proof.
  intros Hs Hlo Hhi Hl Hh.
  destruct (amin_amax_sorted xp lo hi Hs Hlo Hhi) as [H0 Hn].
  assert (Hlen : (0 < length xp)%nat).
  { destruct xp; [discriminate | simpl; lia]. }
  pose proof (searchsorted_right_passes xp x Hs 0 Hlen ltac:(lra)) as Hpos.
  pose proof (searchsorted_right_bound xp x) as Hb.
  assert (Hlt : (searchsorted_right xp x < length xp)%nat).
  { destruct (Nat.eq_dec (searchsorted_right xp x) (length xp)) as [Heq|]; [|lia].
    pose proof (searchsorted_right_le xp x (length xp - 1) ltac:(lia)). lra. }
  destruct (searchsorted_right xp x) as [|k] eqn:Hk; [lia|].
  destruct (left_weight_inside xp x k Hk Hlt) as (_ & Hw & Hxl & Hxr).
  rewrite fdiv_finite in Hw by lra. eauto.
Qed.

Lemma left_weight_strictly_within (xp : list Q) (x : Q) :
  StronglySorted Qlt xp -> strictly_within xp x ->
  exists wl, left_weight xp x = Ret (Finite wl).
Proof.
  intros Hs (lo & hi & Hlo & Hhi & Hl & Hh).
  apply left_weight_finite with lo hi; auto; [|lra].
  now apply StronglySorted_lt_le.
Qed.

Lemma interp1d_finite {V : Type} `{Cell V} (fp : list V) (xp : list Q) (x : Q) :
  StronglySorted Qlt xp -> strictly_within xp x -> fp <> [] ->
  exists fl fr wl,
    In fl fp /\ In fr fp /\
    interp1d fp xp x = Ret (Finite (cadd (cmul fl wl) (cmul fr (1 - wl)))).
Proof.
  intros Hs Hx Hfp.
  destruct (left_weight_strictly_within xp x Hs Hx) as [wl Hw].
  destruct (getitem_ret fp (left_index xp x) Hfp) as (fl & Hfl & Hinl).
  destruct (getitem_ret fp (left_index xp x + 1) Hfp) as (fr & Hfr & Hinr).
  exists fl, fr, wl. unfold interp1d. rewrite Hw, Hfl, Hfr. auto.
Qed.

Lemma interp2d_point_finite {V : Type} `{Cell V}
  (fp : list (list V)) (x0p x1p : list Q) (x0 x1 : Q) :
  StronglySorted Qlt x0p -> StronglySorted Qlt x1p ->
  strictly_within x0p x0 -> strictly_within x1p x1 ->
  fp <> [] -> Forall (fun row => row <> []) fp ->
  exists v, interp2d_point fp x0p x1p (x0, x1) = Ret (Finite v).
Proof.
  intros Hs0 Hs1 Hx0 Hx1 Hfp Hrows.
  destruct (left_weight_strictly_within x0p x0 Hs0 Hx0) as [wl0 Hw0].
  destruct (left_weight_strictly_within x1p x1 Hs1 Hx1) as [wl1 Hw1].
  rewrite Forall_forall in Hrows.
  assert (Hget : forall i j, exists v, getitem2 fp i j = Ret v).
  { intros i j. unfold getitem2.
    destruct (getitem_ret fp i Hfp) as (row & Hrow & Hin).
    rewrite Hrow. cbn [bind].
    destruct (getitem_ret row j (Hrows row Hin)) as (v & Hv & _). eauto. }
  unfold interp2d_point. rewrite Hw0, Hw1. cbn [bind].
  destruct (Hget (left_index x0p x0) (left_index x1p x1)) as [f00 ->].
  destruct (Hget (left_index x0p x0 + 1)%Z (left_index x1p x1)) as [f10 ->].
  destruct (Hget (left_index x0p x0) (left_index x1p x1 + 1)%Z) as [f01 ->].
  destruct (Hget (left_index x0p x0 + 1)%Z (left_index x1p x1 + 1)%Z) as [f11 ->].
  cbn [bind]. eauto.
Qed.

Lemma mapM_all_ret {A B : Type} (g : A -> outcome B) (P : B -> Prop) (l : list A) :
  Forall (fun a => exists b, g a = Ret b /\ P b) l ->
  exists bs, mapM g l = Ret bs /\ Forall P bs /\ length bs = length l.
Proof.
  induction 1 as [|a l (b & Hb & HP) _ (bs & Hbs & HPs & Hlen)]; cbn [mapM].
  - exists []. repeat split; constructor.
  - rewrite Hb, Hbs. cbn [bind]. exists (b :: bs).
    repeat split; [now constructor | simpl; now rewrite Hlen].
Qed.

(** ** Shapes *)

Lemma has_len_map {A : Type} (n : nat) (P : A -> Prop) (g : A -> A) (l : list A) :
  (forall a, P a -> P (g a)) -> has_len n P l -> has_len n P (map g l).
Proof.
  intros Hg [Hlen Hall]. split; [now rewrite length_map|].
  apply Forall_map. revert Hall. now apply Forall_impl.
Qed.

Lemma has_len_zip_with {A : Type} (n : nat) (P : A -> Prop) (g : A -> A -> A) :
  (forall a b, P a -> P b -> P (g a b)) ->
  forall l m, has_len n P l -> has_len n P m -> has_len n P (zip_with g l m).
Proof.
  intros Hg l m [Hl Pl] [Hm Pm]. split.
  - rewrite zip_with_length; congruence.
  - clear Hl Hm. revert m Pm.
    induction Pl as [|a l Pa Pl IH]; intros m Pm; cbn; [constructor|].
    destruct Pm as [|b m Pb Pm]; constructor; auto.
Qed.

Lemma has_len_repeat {A : Type} (n : nat) (P : A -> Prop) (a : A) :
  P a -> has_len n P (repeat a n).
Proof.
  intros Pa. split; [apply repeat_length|].
  apply Forall_forall. intros b Hb. apply repeat_spec in Hb. now subst.
Qed.

Section Shape3.

Variables n x o : nat.

Lemma shape3_zeros (a : Abscs) :
  n = length (absc_nBs a) -> x = length (absc_x a) -> o = length (absc_out a) ->
  shape3 n x o (zeros_nxo a).
Proof.
  intros -> -> ->. unfold shape3, zeros_nxo, zeros_out.
  repeat apply has_len_repeat. exact I.
Qed.

Lemma shape3_cmul (t : tensor3) (w : Q) : shape3 n x o t -> shape3 n x o (cmul t w).
Proof.
  unfold shape3. cbn. apply has_len_map. intros m.
  apply has_len_map. intros v. apply has_len_map. auto.
Qed.

Lemma shape3_cadd (t u : tensor3) :
  shape3 n x o t -> shape3 n x o u -> shape3 n x o (cadd t u).
Proof.
  unfold shape3. cbn. apply has_len_zip_with. intros m m'.
  apply has_len_zip_with. intros v v'. apply has_len_zip_with. auto.
Qed.

Lemma shape3_contract (z : tensor3) (in_spec : list Q) (slab : list tensor3) :
  shape3 n x o z -> Forall (shape3 n x o) slab ->
  shape3 n x o (contract z in_spec slab).
Proof.
  unfold contract. revert z slab.
  induction in_spec as [|w ws IH]; intros z slab Hz Hslab; cbn; [assumption|].
  destruct Hslab as [|c slab Hc Hslab]; cbn; [assumption|].
  apply IH; [|assumption]. apply shape3_cadd; [assumption|].
  now apply shape3_cmul.
Qed.

(** A table of this shape can be indexed along its first two axes. *)
Lemma shape3_indexable (t : tensor3) :
  (0 < n)%nat -> (0 < x)%nat -> shape3 n x o t ->
  t <> [] /\ Forall (fun row => row <> []) t.
Proof.
  intros Hn Hx [Hlen Hall]. split.
  - intros ->. simpl in Hlen. lia.
  - revert Hall. apply Forall_impl. intros row [Hrow _] ->. simpl in Hrow. lia.
Qed.

End Shape3.

Lemma mapM_ret_inv {A B : Type} (g : A -> outcome B) (l : list A) :
  forall bs, mapM g l = Ret bs -> Forall2 (fun a b => g a = Ret b) l bs.
Proof.
  induction l as [|a l IH]; cbn [mapM]; intros bs Hbs.
  - injection Hbs as <-. constructor.
  - destruct (g a) as [b|e] eqn:Hb; cbn [bind] in Hbs; [|discriminate].
    destruct (mapM g l) as [bs'|e]; cbn [bind] in Hbs; [|discriminate].
    injection Hbs as <-. constructor; auto.
Qed.

Section TableShape.

Variable bi : BatchInterpolator.
Hypothesis Hwf : wf_table bi.

Let a := abscs bi.
Let n := length (absc_nBs a).
Let x := length (absc_x a).
Let o := length (absc_out a).

Lemma wf_data :
  has_len (length (absc_rs a)) (has_len (length (absc_Ein a)) (shape3 n x o)) (data bi).
Proof. apply Hwf. Qed.

Lemma einsum_e_shape (s : list Q) (t : tensor4) :
  einsum_e a s (data bi) = Ret t -> has_len (length (absc_rs a)) (shape3 n x o) t.
Proof.
  intros Ht. destruct wf_data as [Hlen Hall].
  apply mapM_ret_inv in Ht. split.
  - rewrite <- Hlen. symmetry. exact (Forall2_length Ht).
  - clear Hlen. induction Ht as [|slab c d t Hc Ht IH]; [constructor|].
    inversion Hall as [|? ? [_ Hslab] Hrest]; subst. constructor; [|now apply IH].
    destruct (length s =? length slab)%nat; [|discriminate].
    injection Hc as <-. apply shape3_contract; [|assumption].
    now apply shape3_zeros.
Qed.

Lemma einsum_e_ret (in_spec : list Q) :
  length in_spec = length (absc_Ein a) ->
  exists t, einsum_e a in_spec (data bi) = Ret t.
Proof.
  intros Hlen. destruct wf_data as [_ Hall].
  destruct (mapM_all_ret
              (fun slab => if (length in_spec =? length slab)%nat
                           then Ret (contract (zeros_nxo a) in_spec slab)
                           else Raise ShapeError)
              (fun _ => True) (data bi)) as (t & Ht & _).
  - revert Hall. apply Forall_impl. intros slab [Hslab _].
    rewrite Hlen, Hslab, Nat.eqb_refl. eauto.
  - exists t. exact Ht.
Qed.

Lemma in_spec_sum_ret (in_spec : list Q) :
  cache_ok bi -> length in_spec = length (absc_Ein a) ->
  exists d, in_spec_sum bi in_spec = Ret d /\
            has_len (length (absc_rs a)) (shape3 n x o) d.
Proof.
  intros Hcache Hlen. unfold in_spec_sum.
  destruct (same_spec in_spec (fixed_in_spec bi)) eqn:Hsame.
  - destruct (fixed_in_spec bi) as [s|] eqn:Hs; [|discriminate].
    destruct (Hcache s Hs) as (d & -> & Hd).
    exists d. split; [reflexivity | exact (einsum_e_shape s d Hd)].
  - destruct (einsum_e_ret in_spec Hlen) as [t Ht].
    exists t. split; [exact Ht | exact (einsum_e_shape in_spec t Ht)].
Qed.

(** Steps 2 and 3 give numbers for queries strictly inside the table. *)
Lemma call_from_finite (d : tensor4) (rs : Q) (nBs_s x_s : list Q)
  (sum_weight : option (list Q)) (sum_batch_size : positive) :
  has_len (length (absc_rs a)) (shape3 n x o) d ->
  strictly_within (absc_rs a) rs ->
  Forall (strictly_within (absc_x a)) x_s ->
  Forall (strictly_within (absc_nBs a)) nBs_s ->
  length nBs_s = length x_s ->
  exists rows,
    call_from bi d rs nBs_s x_s false sum_weight sum_batch_size = Ret (Rows rows) /\
    Forall is_finite rows /\ length rows = length x_s.
Proof.
  intros [Hd Hshape] Hrs Hx Hn Hlen.
  destruct Hwf as ((Srs & Lrs) & (Sn & Ln) & (Sx & Lx) & _).
  fold a in Srs, Lrs, Sn, Ln, Sx, Lx.
  assert (Hne : d <> []).
  { intros ->. simpl in Hd. lia. }
  destruct (interp1d_finite d (absc_rs a) rs Srs Hrs Hne)
    as (fl & fr & wl & Hfl & Hfr & Hinterp).
  rewrite Forall_forall in Hshape.
  assert (Hat : shape3 n x o (cadd (cmul fl wl) (cmul fr (1 - wl)))).
  { apply shape3_cadd; apply shape3_cmul; auto. }
  destruct (shape3_indexable n x o _ ltac:(unfold n; lia) ltac:(unfold x; lia) Hat)
    as [Hne' Hrows].
  unfold call_from. fold a. rewrite Hinterp. cbn [bind negb].
  unfold stack. rewrite Hlen, Nat.eqb_refl. cbn [bind interp2d_f].
  destruct (mapM_all_ret
              (interp2d_point (cadd (cmul fl wl) (cmul fr (1 - wl)))
                              (absc_nBs a) (absc_x a))
              is_finite (combine nBs_s x_s)) as (rows & Hrowsret & Hfin & Hl).
  - apply Forall_forall. intros [x0 x1] Hin.
    pose proof (in_combine_l _ _ _ _ Hin) as H0.
    pose proof (in_combine_r _ _ _ _ Hin) as H1.
    rewrite Forall_forall in Hx, Hn.
    destruct (interp2d_point_finite _ (absc_nBs a) (absc_x a) x0 x1 Sn Sx
                (Hn _ H0) (Hx _ H1) Hne' Hrows) as [v Hv].
    exists (Finite v). split; [exact Hv | now exists v].
  - unfold interp2d. rewrite Hrowsret. cbn [bind].
    exists rows. repeat split; auto.
    rewrite Hl, length_combine. lia.
Qed.

End TableShape.

Lemma strictly_within_range (absc : list Q) (v : Q) :
  strictly_within absc v -> within_range absc v.
Proof.
  intros (lo & hi & Hlo & Hhi & Hl & Hh). exists lo, hi.
  repeat split; auto; lra.
Qed.

Lemma cache_ok_init (a : Abscs) (d : tensor5) : cache_ok (init a d).
Proof. intros s. discriminate. Qed.

Ltac concrete_wf :=
  unfold wf_table, good_absc, has_len, shape3; cbn;
  repeat split; repeat constructor; try lia; try reflexivity.

Lemma wf_ex_bi : wf_table ex_bi.
Proof. concrete_wf. Qed.

Lemma wf_ex_bi0 : wf_table ex_bi0.
Proof. concrete_wf. Qed.

(** C4, as amended: on a loaded table the error policy raises the
    out-of-bounds error exactly when some component of [rs], [x_s] or
    [nBs_s] is outside the closed range of its abscissa; the clip policy
    never raises that error, and when the three abscissas are positive
    (with [min*factor <= max/factor]) it moves every component strictly
    inside its range, returns what the error policy returns at the moved
    queries, and (without summing) returns rows of finite numbers. *)
Theorem call_out_of_bounds_policy (bi : BatchInterpolator)
  (rs : Q) (in_spec nBs_s x_s : list Q) (sum_result : bool)
  (sum_weight : option (list Q)) (sum_batch_size : positive) :
  wf_table bi -> cache_ok bi ->
  ((exists axis,
      call bi rs in_spec nBs_s x_s sum_result sum_weight sum_batch_size "error"
      = Raise (OutOfBounds axis))
   <-> ~ all_within (abscs bi) rs x_s nBs_s) /\
  not_oob (call bi rs in_spec nBs_s x_s sum_result sum_weight sum_batch_size "clip") /\
  (clip_friendly (absc_rs (abscs bi)) ->
   clip_friendly (absc_x (abscs bi)) ->
   clip_friendly (absc_nBs (abscs bi)) ->
   exists rs' x_s' nBs_s',
     check_or_clip (abscs bi) "clip" rs x_s nBs_s = Ret (rs', x_s', nBs_s') /\
     strictly_within (absc_rs (abscs bi)) rs' /\
     Forall (strictly_within (absc_x (abscs bi))) x_s' /\
     Forall (strictly_within (absc_nBs (abscs bi))) nBs_s' /\
     call bi rs in_spec nBs_s x_s sum_result sum_weight sum_batch_size "clip"
     = call bi rs' in_spec nBs_s' x_s' sum_result sum_weight sum_batch_size "error" /\
     (length in_spec = length (absc_Ein (abscs bi)) ->
      length nBs_s = length x_s ->
      exists rows,
        call bi rs in_spec nBs_s x_s false sum_weight sum_batch_size "clip"
        = Ret (Rows rows) /\
        Forall is_finite rows /\ length rows = length x_s)).
Proof.
  intros Hwf Hcache.
  pose proof Hwf as ((Srs & Lrs) & (Sn & Ln) & (Sx & Lx) & _).
  assert (Nrs : absc_rs (abscs bi) <> []) by (apply good_absc_nonempty; split; auto).
  assert (Nx : absc_x (abscs bi) <> []) by (apply good_absc_nonempty; split; auto).
  assert (Nn : absc_nBs (abscs bi) <> []) by (apply good_absc_nonempty; split; auto).
  split; [|split].
  - destruct (check_error_policy (abscs bi) rs x_s nBs_s Nrs Nx Nn)
      as [[Hin Hret]|[Hout [axis Hraise]]].
    + split; [|contradiction]. intros [axis Hcall].
      apply call_oob_iff in Hcall. congruence.
    + split; [auto|]. intros _. exists axis. now apply call_oob_iff.
  - unfold call. apply not_oob_bind; [apply check_clip_not_oob|].
    intros [[rs' x_s'] nBs_s'].
    apply not_oob_bind; [apply not_oob_in_spec_sum | intros d; apply not_oob_call_from].
  - intros Fr Fx Fn.
    destruct (check_clip_policy (abscs bi) rs x_s nBs_s Fr Fx Fn)
      as (rs' & x_s' & nBs_s' & Hclip & Wr & Wx & Wn & Lx' & Ln').
    exists rs', x_s', nBs_s'. repeat split; auto.
    + destruct (check_error_policy (abscs bi) rs' x_s' nBs_s' Nrs Nx Nn)
        as [[Hin Hret]|[Hout _]].
      * unfold call. now rewrite Hclip, Hret.
      * exfalso. apply Hout. repeat split.
        -- now apply strictly_within_range.
        -- revert Wx. apply Forall_impl, strictly_within_range.
        -- revert Wn. apply Forall_impl, strictly_within_range.
    + intros Hspec Hlen.
      destruct (in_spec_sum_ret bi Hwf in_spec Hcache Hspec) as (d & Hd & Hshape).
      destruct (call_from_finite bi Hwf d rs' nBs_s' x_s' sum_weight sum_batch_size
                  Hshape Wr Wx Wn ltac:(congruence)) as (rows & Hrows & Hfin & Hl).
      exists rows. unfold call. rewrite Hclip, Hd. cbn [bind].
      repeat split; auto. congruence.
Qed.

Lemma call_out_of_bounds_policy_witness :
  ((exists axis,
      call ex_bi 3 [1] [3 # 2] [1 # 2] false None 1%positive "error"
      = Raise (OutOfBounds axis))
   <-> ~ all_within (abscs ex_bi) 3 [1 # 2] [3 # 2]) /\
  not_oob (call ex_bi 3 [1] [3 # 2] [1 # 2] false None 1%positive "clip") /\
  (clip_friendly (absc_rs (abscs ex_bi)) ->
   clip_friendly (absc_x (abscs ex_bi)) ->
   clip_friendly (absc_nBs (abscs ex_bi)) ->
   exists rs' x_s' nBs_s',
     check_or_clip (abscs ex_bi) "clip" 3 [1 # 2] [3 # 2] = Ret (rs', x_s', nBs_s') /\
     strictly_within (absc_rs (abscs ex_bi)) rs' /\
     Forall (strictly_within (absc_x (abscs ex_bi))) x_s' /\
     Forall (strictly_within (absc_nBs (abscs ex_bi))) nBs_s' /\
     call ex_bi 3 [1] [3 # 2] [1 # 2] false None 1%positive "clip"
     = call ex_bi rs' [1] nBs_s' x_s' false None 1%positive "error" /\
     (length [1] = length (absc_Ein (abscs ex_bi)) ->
      length [3 # 2] = length [1 # 2] ->
      exists rows,
        call ex_bi 3 [1] [3 # 2] [1 # 2] false None 1%positive "clip"
        = Ret (Rows rows) /\
        Forall is_finite rows /\ length rows = length [1 # 2])).
Proof.
  apply (call_out_of_bounds_policy ex_bi 3 [1] [3 # 2] [1 # 2] false None 1%positive).
  - exact wf_ex_bi.
  - apply cache_ok_init.
Defined.

(** C4 as stated fails on a table whose ionization abscissa starts at
    zero: the clip policy moves a query below the range onto the minimum
    itself, which is not strictly inside. *)
Lemma clip_onto_zero_minimum :
  wf_table ex_bi0 /\ cache_ok ex_bi0 /\
  amin (absc_x (abscs ex_bi0)) = Ret 0 /\
  check_or_clip (abscs ex_bi0) "clip" (3 # 2) [-1] [3 # 2]
  = Ret (3 # 2, [0 * factor], [3 # 2]) /\
  0 * factor == 0 /\
  ~ strictly_within (absc_x (abscs ex_bi0)) (0 * factor).
Proof.
  split; [exact wf_ex_bi0|]. split; [apply cache_ok_init|].
  split; [reflexivity|]. split; [reflexivity|]. split; [reflexivity|].
  intros (lo & hi & Hlo & _ & Hl & _). cbn in Hlo. injection Hlo as <-.
  revert Hl. discriminate.
Qed.

(** ** Equal tables give equal results *)

Lemma oeq_bind {A B : Type} (R : A -> A -> Prop) (S : B -> B -> Prop)
  (m m' : outcome A) (k k' : A -> outcome B) :
  oeq R m m' -> (forall a a', R a a' -> oeq S (k a) (k' a')) ->
  oeq S (bind m k) (bind m' k').
Proof.
  intros Hm Hk. destruct m as [a|e], m' as [a'|e']; cbn in *;
    try contradiction; auto.
Qed.

Lemma oeq_refl_of {A : Type} (R : A -> A -> Prop) (m : outcome A) :
  (forall a, R a a) -> oeq R m m.
Proof. intros HR. destruct m; cbn; auto. Qed.

Lemma oeq_mapM {A B : Type} (R : B -> B -> Prop) (g g' : A -> outcome B)
  (l : list A) :
  (forall a, oeq R (g a) (g' a)) -> oeq (Forall2 R) (mapM g l) (mapM g' l).
Proof.
  intros Hg. induction l as [|a l IH]; cbn [mapM]; [constructor|].
  apply oeq_bind with R; [apply Hg|]. intros b b' Hb.
  apply oeq_bind with (Forall2 R); [apply IH|]. intros bs bs' Hbs.
  cbn. now constructor.
Qed.

Lemma Forall2_nth_rel {A : Type} (R : A -> A -> Prop) (l l' : list A) (d d' : A) :
  Forall2 R l l' ->
  forall i, (i < length l)%nat -> R (nth i l d) (nth i l' d').
Proof.
  induction 1 as [|a a' l l' Ha Hl IH]; intros i Hi; simpl in Hi; [lia|].
  destruct i as [|i]; cbn; [assumption | apply IH; lia].
Qed.

Lemma oeq_getitem {A : Type} (R : A -> A -> Prop) (l l' : list A) (i : Z) :
  Forall2 R l l' -> oeq R (getitem l i) (getitem l' i).
Proof.
  intros Hl. pose proof (Forall2_length Hl) as Hlen.
  unfold getitem. destruct Hl as [|a a' l l' Ha Hl]; [reflexivity|].
  cbn [oeq]. rewrite <- Hlen.
  apply Forall2_nth_rel; [now constructor|].
  apply clamp_index_lt. simpl. lia.
Qed.

Section ProperInterp.

Context {V : Type} `{CellLaws V}.

Lemma feq_refl_of (a : fval V) : feq ceq a a.
Proof. destruct a; cbn; [apply ceq_refl | exact I]. Qed.

Lemma oeq_interp1d (fp fp' : list V) (xp : list Q) (x : Q) :
  Forall2 ceq fp fp' ->
  oeq (feq ceq) (interp1d fp xp x) (interp1d fp' xp x).
Proof.
  intros Hfp. unfold interp1d.
  apply oeq_bind with eq; [now apply oeq_refl_of|]. intros w ? <-.
  apply oeq_bind with ceq; [now apply oeq_getitem|]. intros fl fl' Hfl.
  apply oeq_bind with ceq; [now apply oeq_getitem|]. intros fr fr' Hfr.
  destruct w as [wl|]; cbn; [|exact I].
  apply cadd_proper; apply cmul_proper; auto; reflexivity.
Qed.

Lemma oeq_getitem2 (fp fp' : list (list V)) (i j : Z) :
  Forall2 (Forall2 ceq) fp fp' ->
  oeq ceq (getitem2 fp i j) (getitem2 fp' i j).
Proof.
  intros Hfp. unfold getitem2.
  apply oeq_bind with (Forall2 ceq); [now apply oeq_getitem|].
  intros row row' Hrow. now apply oeq_getitem.
Qed.

Lemma oeq_interp2d_point (fp fp' : list (list V)) (x0p x1p : list Q) (q : Q * Q) :
  Forall2 (Forall2 ceq) fp fp' ->
  oeq (feq ceq) (interp2d_point fp x0p x1p q) (interp2d_point fp' x0p x1p q).
Proof.
  intros Hfp. unfold interp2d_point. destruct q as [x0 x1].
  apply oeq_bind with eq; [now apply oeq_refl_of|]. intros w0 ? <-.
  apply oeq_bind with eq; [now apply oeq_refl_of|]. intros w1 ? <-.
  apply oeq_bind with ceq; [now apply oeq_getitem2|]. intros f00 g00 H00.
  apply oeq_bind with ceq; [now apply oeq_getitem2|]. intros f10 g10 H10.
  apply oeq_bind with ceq; [now apply oeq_getitem2|]. intros f01 g01 H01.
  apply oeq_bind with ceq; [now apply oeq_getitem2|]. intros f11 g11 H11.
  destruct w0 as [wl0|], w1 as [wl1|]; cbn; try exact I.
  repeat apply cadd_proper; repeat apply cmul_proper; auto; reflexivity.
Qed.

Lemma oeq_interp2d_f (fp fp' : fval (list (list V))) (x0p x1p : list Q)
  (x01 : list (Q * Q)) :
  feq (Forall2 (Forall2 ceq)) fp fp' ->
  oeq (Forall2 (feq ceq)) (interp2d_f fp x0p x1p x01) (interp2d_f fp' x0p x1p x01).
Proof.
  intros Hfp. destruct fp as [d|], fp' as [d'|]; cbn in Hfp; try contradiction.
  - cbn [interp2d_f]. unfold interp2d. apply oeq_mapM.
    intros q. now apply oeq_interp2d_point.
  - cbn. induction x01; cbn; constructor; auto; exact I.
Qed.

End ProperInterp.

(** ** Equal rows give equal sums *)

Lemma row_eq_refl (a : fval (list Q)) : row_eq a a.
Proof. apply feq_refl_of. Qed.

Lemma row_eq_sym (a b : fval (list Q)) : row_eq a b -> row_eq b a.
Proof.
  unfold row_eq. destruct a, b; cbn [feq]; auto. apply ceq_sym.
Qed.

Lemma row_eq_trans (a b c : fval (list Q)) :
  row_eq a b -> row_eq b c -> row_eq a c.
Proof.
  unfold row_eq. destruct a, b, c; cbn [feq]; auto; try contradiction.
  apply ceq_trans.
Qed.

Lemma row_eq_fadd (a a' b b' : fval (list Q)) :
  row_eq a a' -> row_eq b b' -> row_eq (fadd a b) (fadd a' b').
Proof.
  unfold row_eq. destruct a, a', b, b'; cbn [feq fadd]; auto; try contradiction.
  apply cadd_proper.
Qed.

Lemma row_eq_fscale (a a' : fval (list Q)) (w : Q) :
  row_eq a a' -> row_eq (fscale a w) (fscale a' w).
Proof.
  unfold row_eq. destruct a, a'; cbn [feq fscale]; auto. intros Ha.
  apply cmul_proper; [assumption | reflexivity].
Qed.

Lemma row_eq_fold_fadd (rows rows' : list (fval (list Q))) :
  Forall2 row_eq rows rows' ->
  forall acc acc', row_eq acc acc' ->
                   row_eq (fold_left fadd rows acc) (fold_left fadd rows' acc').
Proof.
  induction 1 as [|r r' rows rows' Hr Hrows IH]; intros acc acc' Hacc; cbn;
    [assumption|].
  apply IH. now apply row_eq_fadd.
Qed.

Lemma row_eq_sum_rows (z : list Q) (rows rows' : list (fval (list Q))) :
  Forall2 row_eq rows rows' -> row_eq (sum_rows z rows) (sum_rows z rows').
Proof.
  intros Hrows. unfold sum_rows. apply row_eq_fold_fadd; [assumption|].
  apply row_eq_refl.
Qed.

Lemma row_eq_fold_dot (w : list Q) : forall rows rows',
  Forall2 row_eq rows rows' ->
  forall acc acc', row_eq acc acc' ->
    row_eq (fold_left (fun acc wr => fadd acc (fscale (snd wr) (fst wr)))
                      (combine w rows) acc)
           (fold_left (fun acc wr => fadd acc (fscale (snd wr) (fst wr)))
                      (combine w rows') acc').
Proof.
  induction w as [|w0 w IH]; intros rows rows' Hrows acc acc' Hacc; cbn;
    [assumption|].
  destruct Hrows as [|r r' rows rows' Hr Hrows]; cbn; [assumption|].
  apply IH; [assumption|]. apply row_eq_fadd; [assumption|].
  now apply row_eq_fscale.
Qed.

Lemma oeq_dot_rows (z w : list Q) (rows rows' : list (fval (list Q))) :
  Forall2 row_eq rows rows' ->
  oeq row_eq (dot_rows z w rows) (dot_rows z w rows').
Proof.
  intros Hrows. unfold dot_rows. rewrite <- (Forall2_length Hrows).
  destruct (length w =? length rows)%nat; cbn; [|reflexivity].
  apply row_eq_fold_dot; [assumption | apply row_eq_refl].
Qed.

Lemma oeq_sum_batches (a : Abscs) (dat dat' : fval tensor3)
  (wb : option (list (list Q))) (batches : list (list (Q * Q))) :
  tensor3_eq dat dat' ->
  forall i res res', row_eq res res' ->
    oeq row_eq (sum_batches a dat wb i batches res)
               (sum_batches a dat' wb i batches res').
Proof.
  intros Hdat. induction batches as [|b batches IH]; intros i res res' Hres;
    cbn [sum_batches]; [exact Hres|].
  apply oeq_bind with (Forall2 row_eq).
  { apply (oeq_interp2d_f (V := list Q)). exact Hdat. }
  intros rows rows' Hrows.
  apply oeq_bind with row_eq.
  - destruct wb as [wb|]; [|cbn; now apply row_eq_sum_rows].
    destruct (nth_error wb i); [now apply oeq_dot_rows | reflexivity].
  - intros term term' Hterm. apply IH. now apply row_eq_fadd.
Qed.

Lemma result_eq_refl (r : call_result) : result_eq r r.
Proof.
  destruct r as [rows|v]; cbn.
  - induction rows; constructor; auto. apply row_eq_refl.
  - apply row_eq_refl.
Qed.

(** Steps 2 and 3 of [__call__] respect the equality of contracted
    tables. *)
Lemma oeq_call_from (bi : BatchInterpolator) (d d' : tensor4)
  (rs : Q) (nBs_s x_s : list Q) (sum_result : bool)
  (sum_weight : option (list Q)) (sum_batch_size : positive) :
  Forall2 ceq d d' ->
  oeq result_eq
      (call_from bi d rs nBs_s x_s sum_result sum_weight sum_batch_size)
      (call_from bi d' rs nBs_s x_s sum_result sum_weight sum_batch_size).
Proof.
  intros Hd. unfold call_from.
  apply oeq_bind with tensor3_eq.
  { apply (oeq_interp1d (V := tensor3)). exact Hd. }
  intros dat dat' Hdat. destruct sum_result; cbn [negb].
  - apply oeq_bind with eq; [now apply oeq_refl_of|]. intros wb ? <-.
    apply oeq_bind with eq; [now apply oeq_refl_of|]. intros q ? <-.
    apply oeq_bind with eq; [now apply oeq_refl_of|]. intros batches ? <-.
    apply oeq_bind with row_eq.
    + apply oeq_sum_batches; [assumption | apply row_eq_refl].
    + intros v v' Hv. exact Hv.
  - apply oeq_bind with eq; [now apply oeq_refl_of|]. intros q ? <-.
    apply oeq_bind with (Forall2 row_eq).
    + apply (oeq_interp2d_f (V := list Q)). exact Hdat.
    + intros rows rows' Hrows. exact Hrows.
Qed.

(** ** The cache of the contracted table *)

Lemma same_spec_iff (in_spec s : list Q) :
  same_spec in_spec (Some s) = true <-> Forall2 Qeq in_spec s.
Proof.
  unfold same_spec. rewrite andb_true_iff, Nat.eqb_eq. split.
  - intros [Hlen Hall]. revert s Hlen Hall.
    induction in_spec as [|x in_spec IH]; intros [|y s] Hlen Hall;
      simpl in Hlen; try lia; [constructor|].
    cbn in Hall. apply andb_true_iff in Hall as [Hxy Hall].
    constructor; [now apply Qeq_bool_iff | apply IH; [lia | assumption]].
  - induction 1 as [|x y in_spec s Hxy Hs [Hlen Hall]]; [split; reflexivity|].
    split; [simpl; now rewrite Hlen|].
    cbn. apply andb_true_iff. split; [now apply Qeq_bool_iff | assumption].
Qed.

Lemma contract_proper (ws ws' : list Q) :
  Forall2 Qeq ws ws' ->
  forall (slab : list tensor3) (z z' : tensor3),
    ceq z z' -> ceq (contract z ws slab) (contract z' ws' slab).
Proof.
  unfold contract.
  induction 1 as [|w w' ws ws' Hw Hws IH]; intros slab z z' Hz; cbn [combine fold_left];
    [assumption|].
  destruct slab as [|c slab]; cbn [combine fold_left]; [assumption|].
  apply IH. cbn [fst snd]. apply cadd_proper; [assumption|].
  apply cmul_proper; [apply ceq_refl | assumption].
Qed.

Lemma oeq_einsum_e (a : Abscs) (ws ws' : list Q) (d : tensor5) :
  Forall2 Qeq ws ws' ->
  oeq (Forall2 ceq) (einsum_e a ws d) (einsum_e a ws' d).
Proof.
  intros Hws. unfold einsum_e. apply oeq_mapM. intros slab.
  rewrite <- (Forall2_length Hws).
  destruct (length ws =? length slab)%nat; cbn [oeq]; [|reflexivity].
  apply contract_proper; [assumption | apply ceq_refl].
Qed.

Lemma Qeq_list_sym (l m : list Q) : Forall2 Qeq l m -> Forall2 Qeq m l.
Proof. induction 1; constructor; auto. now symmetry. Qed.

(** After [set_fixed_in_spec] the cache holds the contraction of the
    spectrum it was given. *)
Lemma set_fixed_in_spec_spec (bi0 bi : BatchInterpolator) (s : list Q) :
  set_fixed_in_spec bi0 s = Ret bi ->
  cache_ok bi /\ abscs bi = abscs bi0 /\ data bi = data bi0 /\
  fixed_in_spec bi = Some s /\
  exists d, fixed_in_spec_data bi = Some d /\
            einsum_e (abscs bi) s (data bi) = Ret d.
Proof.
  unfold set_fixed_in_spec.
  destruct (einsum_e (abscs bi0) s (data bi0)) as [d|e] eqn:Hd; cbn [bind];
    [|discriminate].
  intros [= <-]. cbn [abscs data fixed_in_spec fixed_in_spec_data].
  split; [|repeat split; eauto].
  intros s' Hs'. cbn in Hs'. injection Hs' as <-. cbn. eauto.
Qed.

(** With a consistent cache, step 1 gives the contraction of the input
    spectrum, up to the equality of entries. *)
Lemma in_spec_sum_einsum (bi : BatchInterpolator) (in_spec : list Q) :
  cache_ok bi ->
  oeq (Forall2 ceq) (in_spec_sum bi in_spec)
      (einsum_e (abscs bi) in_spec (data bi)).
Proof.
  intros Hcache. unfold in_spec_sum.
  destruct (same_spec in_spec (fixed_in_spec bi)) eqn:Hsame.
  - destruct (fixed_in_spec bi) as [s|] eqn:Hs; [|discriminate].
    destruct (Hcache s Hs) as (d & -> & Hd).
    apply same_spec_iff in Hsame.
    pose proof (oeq_einsum_e (abscs bi) s in_spec (data bi) (Qeq_list_sym _ _ Hsame))
      as Heq.
    now rewrite Hd in Heq.
  - apply oeq_refl_of. intros d. apply Forall2_refl_of. apply ceq_refl.
Qed.

Lemma call_cache_transparent (bi : BatchInterpolator) (rs : Q)
  (in_spec nBs_s x_s : list Q) (sum_result : bool)
  (sum_weight : option (list Q)) (sum_batch_size : positive) (action : string) :
  cache_ok bi ->
  oeq result_eq
      (call bi rs in_spec nBs_s x_s sum_result sum_weight sum_batch_size action)
      (call_recontract bi rs in_spec nBs_s x_s sum_result sum_weight
                       sum_batch_size action).
Proof.
  intros Hcache. unfold call, call_recontract.
  destruct (check_or_clip (abscs bi) action rs x_s nBs_s)
    as [[[rs' x_s'] nBs_s']|e]; cbn [bind oeq]; [|reflexivity].
  apply oeq_bind with (Forall2 ceq); [now apply in_spec_sum_einsum|].
  intros d d' Hd. now apply oeq_call_from.
Qed.

(** C7: once [set_fixed_in_spec(s)] has been called, a call with an input
    spectrum whose elements equal those of [s] takes the cached table, and
    its result equals, entry by entry, the result of the same call with the
    contraction recomputed; and so does the result of a call with any input
    spectrum. *)
Theorem fixed_in_spec_cache_transparent (bi0 bi : BatchInterpolator) (s : list Q)
  (rs : Q) (in_spec nBs_s x_s : list Q) (sum_result : bool)
  (sum_weight : option (list Q)) (sum_batch_size : positive) (action : string) :
  set_fixed_in_spec bi0 s = Ret bi ->
  Forall2 Qeq in_spec s ->
  (exists d, fixed_in_spec_data bi = Some d /\ in_spec_sum bi in_spec = Ret d) /\
  oeq result_eq
      (call bi rs in_spec nBs_s x_s sum_result sum_weight sum_batch_size action)
      (call_recontract bi rs in_spec nBs_s x_s sum_result sum_weight
                       sum_batch_size action) /\
  (forall in_spec',
      oeq result_eq
        (call bi rs in_spec' nBs_s x_s sum_result sum_weight sum_batch_size action)
        (call_recontract bi rs in_spec' nBs_s x_s sum_result sum_weight
                         sum_batch_size action)).
Proof.
  intros Hset Hsame.
  destruct (set_fixed_in_spec_spec bi0 bi s Hset)
    as (Hcache & _ & _ & Hfixed & d & Hd & _).
  split; [|split].
  - exists d. split; [exact Hd|]. unfold in_spec_sum.
    rewrite Hfixed. apply same_spec_iff in Hsame. now rewrite Hsame, Hd.
  - now apply call_cache_transparent.
  - intros in_spec'. now apply call_cache_transparent.
Qed.

Lemma fixed_in_spec_cache_transparent_witness :
  exists bi,
    set_fixed_in_spec ex_bi [1] = Ret bi /\
    (exists d, fixed_in_spec_data bi = Some d /\ in_spec_sum bi [2 # 2] = Ret d) /\
    oeq result_eq
        (call bi (3 # 2) [2 # 2] [3 # 2] [1 # 2] false None 1%positive "error")
        (call_recontract bi (3 # 2) [2 # 2] [3 # 2] [1 # 2] false None 1%positive
                         "error") /\
    (forall in_spec',
        oeq result_eq
          (call bi (3 # 2) in_spec' [3 # 2] [1 # 2] false None 1%positive "error")
          (call_recontract bi (3 # 2) in_spec' [3 # 2] [1 # 2] false None
                           1%positive "error")).
Proof.
  eexists. split; [reflexivity|].
  apply (fixed_in_spec_cache_transparent ex_bi _ [1]).
  - reflexivity.
  - repeat constructor.
Defined.

(** ** Splitting a batch *)

Lemma list_sum_repeat (a k : nat) : list_sum (repeat a k) = (k * a)%nat.
Proof.
  induction k as [|k IH]; [reflexivity|]. cbn [repeat].
  change (list_sum (a :: repeat a k)) with (a + list_sum (repeat a k))%nat.
  rewrite IH. lia.
Qed.

Lemma split_sizes_sum (len n : nat) :
  (0 < n)%nat -> list_sum (split_sizes len n) = len.
Proof.
  intros Hn. unfold split_sizes. rewrite list_sum_app, !list_sum_repeat.
  pose proof (Nat.div_mod_eq len n) as Hdm.
  pose proof (Nat.mod_upper_bound len n ltac:(lia)) as Hr.
  nia.
Qed.

Lemma concat_take_sizes {A : Type} (sizes : list nat) : forall l : list A,
  list_sum sizes = length l -> concat (take_sizes sizes l) = l.
Proof.
  induction sizes as [|k sizes IH]; intros l Hsum; cbn [take_sizes concat].
  - symmetry. apply length_zero_iff_nil. now rewrite <- Hsum.
  - change (list_sum (k :: sizes)) with (k + list_sum sizes)%nat in Hsum.
    rewrite IH by (rewrite length_skipn; lia). apply firstn_skipn.
Qed.

(** Two arrays of one length are cut at the same places. *)
Lemma take_sizes_same_lengths {A B : Type} (sizes : list nat) :
  forall (l : list A) (m : list B),
    length l = length m ->
    Forall2 (fun b w => length b = length w) (take_sizes sizes l) (take_sizes sizes m).
Proof.
  induction sizes as [|k sizes IH]; intros l m Hlen; cbn; constructor.
  - rewrite !length_firstn. lia.
  - apply IH. rewrite !length_skipn. lia.
Qed.

Lemma ceil_div_pos (len : nat) (size : positive) :
  (0 < len)%nat -> (0 < ceil_div len size)%nat.
Proof.
  intros Hlen. unfold ceil_div.
  pose proof (Pos2Nat.is_pos size) as Hs.
  apply Nat.div_str_pos. lia.
Qed.

Lemma array_split_concat {A : Type} (l : list A) (n : nat) :
  (0 < n)%nat ->
  exists parts, array_split l n = Ret parts /\ concat parts = l /\
                parts = take_sizes (split_sizes (length l) n) l.
Proof.
  intros Hn. unfold array_split. destruct n as [|n]; [lia|].
  eexists. split; [reflexivity|]. split; [|reflexivity].
  apply concat_take_sizes. apply split_sizes_sum. lia.
Qed.

(** ** Mapping over a batch *)

Lemma mapM_app {A B : Type} (g : A -> outcome B) (l1 l2 : list A) :
  mapM g (l1 ++ l2)
  = (r1 <- mapM g l1 ;; r2 <- mapM g l2 ;; Ret (r1 ++ r2)).
Proof.
  induction l1 as [|a l1 IH]; cbn [mapM app bind].
  - destruct (mapM g l2); reflexivity.
  - destruct (g a) as [b|e]; cbn [bind]; [|reflexivity].
    rewrite IH. destruct (mapM g l1) as [r1|e]; cbn [bind]; [|reflexivity].
    destruct (mapM g l2); reflexivity.
Qed.

Lemma mapM_length {A B : Type} (g : A -> outcome B) (l : list A) (bs : list B) :
  mapM g l = Ret bs -> length bs = length l.
Proof.
  intros Hbs. apply mapM_ret_inv in Hbs. symmetry. exact (Forall2_length Hbs).
Qed.

Lemma interp2d_f_mapM (dat : fval tensor3) (x0p x1p : list Q) (l : list (Q * Q)) :
  interp2d_f dat x0p x1p l = mapM (point_f dat x0p x1p) l.
Proof.
  destruct dat as [d|]; cbn [interp2d_f point_f]; [reflexivity|].
  induction l as [|q l IH]; cbn [map mapM bind]; [reflexivity|].
  now rewrite <- IH.
Qed.

(** ** Sums in batches *)

Lemma zip_add_assoc (a : list Q) : forall b c,
  Forall2 Qeq (zip_with Qplus (zip_with Qplus a b) c)
              (zip_with Qplus a (zip_with Qplus b c)).
Proof.
  induction a as [|x a IH]; intros [|y b] [|z c]; cbn; constructor; auto.
  ring.
Qed.

Lemma zip_add_zeros (a : list Q) : forall k,
  (length a <= k)%nat -> Forall2 Qeq (zip_with Qplus a (repeat 0 k)) a.
Proof.
  induction a as [|x a IH]; intros k Hk; cbn; [constructor|].
  destruct k as [|k]; [simpl in Hk; lia|]. cbn. constructor.
  - ring.
  - apply IH. simpl in Hk. lia.
Qed.

Lemma zip_with_length_le {A B C : Type} (g : A -> B -> C) (l : list A) :
  forall m, (length (zip_with g l m) <= length l)%nat.
Proof.
  induction l as [|a l IH]; intros [|b m]; cbn; try lia.
  specialize (IH m). lia.
Qed.

Lemma fadd_assoc (a b c : fval (list Q)) :
  row_eq (fadd (fadd a b) c) (fadd a (fadd b c)).
Proof.
  destruct a, b, c; cbn; auto. apply zip_add_assoc.
Qed.

Lemma fadd_zeros (k : nat) (acc : fval (list Q)) :
  fits k acc -> row_eq (fadd acc (Finite (repeat 0 k))) acc.
Proof.
  destruct acc as [v|]; cbn; auto. apply zip_add_zeros.
Qed.

Lemma fits_fadd (k : nat) (acc b : fval (list Q)) :
  fits k acc -> fits k (fadd acc b).
Proof.
  destruct acc as [v|], b as [u|]; cbn; auto. intros Hv.
  pose proof (zip_with_length_le Qplus v u). lia.
Qed.

Lemma fits_zeros (k : nat) : fits k (Finite (repeat 0 k)).
Proof. cbn. now rewrite repeat_length. Qed.

Lemma Forall2_row_eq_refl (rows : list (fval (list Q))) : Forall2 row_eq rows rows.
Proof. induction rows; constructor; auto. apply row_eq_refl. Qed.

(** Adding the sum of a batch is adding its rows one by one. *)
Lemma fadd_sum_rows (k : nat) (rows : list (fval (list Q))) :
  forall acc, fits k acc ->
    row_eq (fadd acc (sum_rows (repeat 0 k) rows)) (fold_left fadd rows acc).
Proof.
  unfold sum_rows. set (Z := Finite (repeat 0 k)).
  induction rows as [|r rows IH]; intros acc Hacc; cbn [fold_left].
  - now apply fadd_zeros.
  - set (S := fold_left fadd rows Z).
    apply row_eq_trans with (fadd (fadd acc r) S);
      [|apply IH; now apply fits_fadd].
    apply row_eq_trans with (fadd acc (fadd (fadd Z r) S)).
    { apply row_eq_fadd; [apply row_eq_refl|]. apply row_eq_sym.
      apply IH. apply fits_fadd, fits_zeros. }
    apply row_eq_trans with (fadd acc (fadd Z (fadd r S))).
    { apply row_eq_fadd; [apply row_eq_refl | apply fadd_assoc]. }
    apply row_eq_trans with (fadd (fadd acc Z) (fadd r S)).
    { apply row_eq_sym, fadd_assoc. }
    apply row_eq_trans with (fadd acc (fadd r S)).
    { apply row_eq_fadd; [now apply fadd_zeros | apply row_eq_refl]. }
    apply row_eq_sym, fadd_assoc.
Qed.

Lemma oeq_trans_of {A : Type} (R : A -> A -> Prop) (m1 m2 m3 : outcome A) :
  (forall a b c, R a b -> R b c -> R a c) ->
  oeq R m1 m2 -> oeq R m2 m3 -> oeq R m1 m3.
Proof.
  intros HR. destruct m1, m2, m3; cbn; try contradiction; eauto; congruence.
Qed.

Lemma oeq_sym_of {A : Type} (R : A -> A -> Prop) (m1 m2 : outcome A) :
  (forall a b, R a b -> R b a) -> oeq R m1 m2 -> oeq R m2 m1.
Proof.
  intros HR. destruct m1, m2; cbn; try contradiction; eauto.
Qed.

Lemma fold_after_batch (k : nat) (acc : fval (list Q))
  (r1 rest : list (fval (list Q))) :
  fits k acc ->
  row_eq (fold_left fadd rest (fadd acc (sum_rows (repeat 0 k) r1)))
         (fold_left fadd (r1 ++ rest) acc).
Proof.
  intros Hacc. rewrite fold_left_app.
  apply row_eq_fold_fadd; [apply Forall2_row_eq_refl|].
  now apply fadd_sum_rows.
Qed.

Lemma fold_left_map_r {A B C : Type} (g : A -> C -> A) (h : B -> C) (l : list B) :
  forall acc, fold_left (fun acc b => g acc (h b)) l acc = fold_left g (map h l) acc.
Proof. induction l as [|b l IH]; intros acc; cbn; [reflexivity | apply IH]. Qed.

Lemma dot_rows_scaled (z w : list Q) (rows : list (fval (list Q))) :
  length w = length rows ->
  dot_rows z w rows = Ret (sum_rows z (scaled w rows)).
Proof.
  intros Hlen. unfold dot_rows, sum_rows, scaled.
  rewrite Hlen, Nat.eqb_refl. f_equal.
  apply (fold_left_map_r fadd (fun wr => fscale (snd wr) (fst wr))).
Qed.

Lemma combine_app_same {A B : Type} (l1 l2 : list A) : forall m1 m2 : list B,
  length l1 = length m1 ->
  combine (l1 ++ l2) (m1 ++ m2) = combine l1 m1 ++ combine l2 m2.
Proof.
  induction l1 as [|x l1 IH]; intros [|y m1] m2 Hlen; simpl in Hlen; try lia.
  - reflexivity.
  - cbn. f_equal. apply IH. lia.
Qed.

Lemma scaled_app (w1 w2 : list Q) (r1 r2 : list (fval (list Q))) :
  length w1 = length r1 ->
  scaled (w1 ++ w2) (r1 ++ r2) = scaled w1 r1 ++ scaled w2 r2.
Proof.
  intros Hlen. unfold scaled. rewrite combine_app_same by assumption.
  apply map_app.
Qed.

Section SumBatches.

Variable a : Abscs.
Variable dat : fval tensor3.

Let k := length (absc_out a).
Let g := point_f dat (absc_nBs a) (absc_x a).

(** The loop over the batches, without weights, adds up the rows of all
    the batches. *)
Lemma sum_batches_plain (batches : list (list (Q * Q))) :
  forall i acc, fits k acc ->
    oeq row_eq (sum_batches a dat None i batches acc)
        (rows <- mapM g (concat batches) ;; Ret (fold_left fadd rows acc)).
Proof.
  induction batches as [|b batches IH]; intros i acc Hacc;
    cbn [sum_batches concat].
  - cbn. apply row_eq_refl.
  - rewrite interp2d_f_mapM, mapM_app. fold g.
    destruct (mapM g b) as [r1|e]; cbn [bind]; [|reflexivity].
    eapply oeq_trans_of; [exact row_eq_trans | apply IH; now apply fits_fadd |].
    destruct (mapM g (concat batches)) as [r2|e]; cbn [bind oeq]; [|reflexivity].
    now apply fold_after_batch.
Qed.

(** With weights, it adds up the weighted rows. *)
Lemma sum_batches_weighted (wb_all : list (list Q))
  (batches : list (list (Q * Q))) (ws : list (list Q)) :
  Forall2 (fun b w => length b = length w) batches ws ->
  forall i acc,
    (forall j w, nth_error ws j = Some w -> nth_error wb_all (i + j) = Some w) ->
    fits k acc ->
    oeq row_eq (sum_batches a dat (Some wb_all) i batches acc)
        (rows <- mapM g (concat batches) ;;
         Ret (fold_left fadd (scaled (concat ws) rows) acc)).
Proof.
  induction 1 as [|b w batches ws Hbw Hrest IH]; intros i acc Hnth Hacc;
    cbn [sum_batches concat].
  - cbn. apply row_eq_refl.
  - rewrite interp2d_f_mapM, mapM_app. fold g.
    destruct (mapM g b) as [r1|e] eqn:Hr1; cbn [bind]; [|reflexivity].
    pose proof (mapM_length g b r1 Hr1) as Hlen1.
    pose proof (Hnth 0%nat w eq_refl) as Hw. rewrite Nat.add_0_r in Hw.
    rewrite Hw, dot_rows_scaled by congruence. cbn [bind].
    eapply oeq_trans_of; [exact row_eq_trans | apply IH |].
    + intros j w' Hj. replace (S i + j)%nat with (i + S j)%nat by lia.
      now apply Hnth.
    + now apply fits_fadd.
    + destruct (mapM g (concat batches)) as [r2|e]; cbn [bind oeq]; [|reflexivity].
      rewrite scaled_app by congruence. now apply fold_after_batch.
Qed.

End SumBatches.

(** ** Summing the batch *)

Lemma result_eq_sym (r1 r2 : call_result) : result_eq r1 r2 -> result_eq r2 r1.
Proof.
  destruct r1 as [a|u], r2 as [b|v]; cbn [result_eq]; auto.
  - induction 1 as [|x y a b Hxy Hab IH]; constructor; auto.
    exact (row_eq_sym _ _ Hxy).
  - apply row_eq_sym.
Qed.

Lemma result_eq_trans (r1 r2 r3 : call_result) :
  result_eq r1 r2 -> result_eq r2 r3 -> result_eq r1 r3.
Proof.
  destruct r1 as [a|u], r2 as [b|v], r3 as [c|w]; cbn [result_eq]; auto;
    try contradiction.
  - intros Hab. revert c.
    induction Hab as [|x y a b Hxy Hab IH]; intros c Hbc;
      inversion Hbc as [|? z ? c' Hyz Hbc']; subst; constructor.
    + exact (row_eq_trans _ _ _ Hxy Hyz).
    + now apply IH.
  - apply row_eq_trans.
Qed.

(** The first statement of [__call__] keeps the length of the batch. *)
Lemma check_or_clip_lengths (a : Abscs) (action : string) (rs rs' : Q)
  (x_s nBs_s x_s' nBs_s' : list Q) :
  check_or_clip a action rs x_s nBs_s = Ret (rs', x_s', nBs_s') ->
  length x_s' = length x_s /\ length nBs_s' = length nBs_s.
Proof.
  unfold check_or_clip. destruct (String.eqb action "clip").
  - destruct (clip_bounds (absc_rs a)) as [b_rs|]; cbn [bind]; [|discriminate].
    destruct (clip_bounds (absc_x a)) as [b_x|]; cbn [bind]; [|discriminate].
    destruct (clip_bounds (absc_nBs a)) as [b_n|]; cbn [bind]; [|discriminate].
    intros [= _ <- <-]. unfold clip_all. now rewrite !length_map.
  - destruct (v_is_within [rs] (absc_rs a)) as [[|]|]; cbn [bind negb];
      try discriminate.
    destruct (v_is_within x_s (absc_x a)) as [[|]|]; cbn [bind negb];
      try discriminate.
    destruct (v_is_within nBs_s (absc_nBs a)) as [[|]|]; cbn [bind negb];
      try discriminate.
    intros [= _ <- <-]. split; reflexivity.
Qed.

(** From the contracted table on: the summing branch returns the plain or
    weighted sum of the rows of the other branch, whatever the batch
    size. *)
Lemma call_from_sum (bi : BatchInterpolator) (d : tensor4) (rs : Q)
  (nBs_s x_s : list Q) (sum_weight : option (list Q)) (b b' : positive) :
  x_s <> [] ->
  (forall w, sum_weight = Some w -> length w = length x_s) ->
  oeq result_eq
      (call_from bi d rs nBs_s x_s true sum_weight b)
      (r <- call_from bi d rs nBs_s x_s false sum_weight b' ;;
       reduce_rows (abscs bi) sum_weight r).
Proof.
  intros Hne Hw. unfold call_from.
  destruct (interp1d d (absc_rs (abscs bi)) rs) as [dat|e]; cbn [bind negb];
    [|reflexivity].
  assert (Hpos : (0 < ceil_div (length x_s) b)%nat).
  { apply ceil_div_pos. destruct x_s; [contradiction | simpl; lia]. }
  set (split_n := ceil_div (length x_s) b) in *.
  set (z := zeros_out (abscs bi)).
  set (g := point_f dat (absc_nBs (abscs bi)) (absc_x (abscs bi))).
  unfold stack. destruct (length nBs_s =? length x_s)%nat eqn:Hlen.
  2: { destruct sum_weight as [w|]; cbn [bind]; [|reflexivity].
       destruct (array_split_concat w split_n Hpos) as (wb & -> & _).
       reflexivity. }
  apply Nat.eqb_eq in Hlen. set (q := combine nBs_s x_s).
  assert (Hq : length q = length x_s).
  { unfold q. rewrite length_combine. lia. }
  destruct (array_split_concat q split_n Hpos) as (batches & Hsplit & Hcat & Hbat).
  cbn [bind]. fold q. rewrite interp2d_f_mapM. fold g.
  destruct sum_weight as [w|]; cbn [bind].
  - specialize (Hw w eq_refl).
    destruct (array_split_concat w split_n Hpos) as (wb & Hwsplit & Hwcat & Hwb).
    rewrite Hwsplit. cbn [bind]. rewrite Hsplit. cbn [bind].
    assert (Hsame : Forall2 (fun b w => length b = length w) batches wb).
    { rewrite Hbat, Hwb. replace (length w) with (length q) by congruence.
      apply take_sizes_same_lengths. congruence. }
    pose proof (sum_batches_weighted (abscs bi) dat wb batches wb Hsame 0
                  (Finite z) (fun j w' Hj => Hj)
                  (fits_zeros (length (absc_out (abscs bi))))) as Hsum.
    rewrite Hcat, Hwcat in Hsum. fold g in Hsum.
    destruct (mapM g q) as [rows|e] eqn:Hrows; cbn [bind] in *.
    + cbn [reduce_rows]. fold z. rewrite dot_rows_scaled
        by (rewrite (mapM_length g q rows Hrows); congruence).
      cbn [bind].
      destruct (sum_batches (abscs bi) dat (Some wb) 0 batches (Finite z));
        cbn in *; auto.
    + destruct (sum_batches (abscs bi) dat (Some wb) 0 batches (Finite z));
        cbn in *; auto.
  - rewrite Hsplit. cbn [bind].
    pose proof (sum_batches_plain (abscs bi) dat batches 0 (Finite z)
                  (fits_zeros (length (absc_out (abscs bi))))) as Hsum.
    rewrite Hcat in Hsum. fold g in Hsum.
    destruct (mapM g q) as [rows|e] eqn:Hrows; cbn [bind] in *;
      destruct (sum_batches (abscs bi) dat None 0 batches (Finite z));
      cbn in *; auto.
Qed.

Lemma call_sum (bi : BatchInterpolator) (rs : Q) (in_spec nBs_s x_s : list Q)
  (sum_weight : option (list Q)) (b b' : positive) (action : string) :
  x_s <> [] ->
  (forall w, sum_weight = Some w -> length w = length x_s) ->
  oeq result_eq
      (call bi rs in_spec nBs_s x_s true sum_weight b action)
      (r <- call bi rs in_spec nBs_s x_s false sum_weight b' action ;;
       reduce_rows (abscs bi) sum_weight r).
Proof.
  intros Hne Hw. unfold call.
  destruct (check_or_clip (abscs bi) action rs x_s nBs_s)
    as [[[rs' x_s'] nBs_s']|e] eqn:Hq; cbn [bind]; [|reflexivity].
  destruct (check_or_clip_lengths _ _ _ _ _ _ _ _ Hq) as [Lx Ln].
  destruct (in_spec_sum bi in_spec) as [d|e]; cbn [bind]; [|reflexivity].
  apply call_from_sum.
  - intros ->. destruct x_s; [contradiction | discriminate].
  - intros w Hsome. rewrite Lx. now apply Hw.
Qed.

(** C6, as amended: for a batch that is not empty (with one weight per
    query when weights are given), the summing call returns, whatever the
    batch size, the plain or weighted sum of the rows that the call
    without summing returns; so two batch sizes give the same vector. *)
Theorem sum_result_is_sum_of_rows (bi : BatchInterpolator) (rs : Q)
  (in_spec nBs_s x_s : list Q) (sum_weight : option (list Q))
  (sum_batch_size sum_batch_size' : positive) (action : string) :
  x_s <> [] ->
  (forall w, sum_weight = Some w -> length w = length x_s) ->
  oeq result_eq
      (call bi rs in_spec nBs_s x_s true sum_weight sum_batch_size action)
      (r <- call bi rs in_spec nBs_s x_s false sum_weight sum_batch_size' action ;;
       reduce_rows (abscs bi) sum_weight r) /\
  oeq result_eq
      (call bi rs in_spec nBs_s x_s true sum_weight sum_batch_size action)
      (call bi rs in_spec nBs_s x_s true sum_weight sum_batch_size' action).
Proof.
  intros Hne Hw. split; [now apply call_sum|].
  eapply oeq_trans_of; [exact result_eq_trans | |].
  - apply (call_sum bi rs in_spec nBs_s x_s sum_weight sum_batch_size
             sum_batch_size' action Hne Hw).
  - apply oeq_sym_of; [exact result_eq_sym|].
    apply (call_sum bi rs in_spec nBs_s x_s sum_weight sum_batch_size'
             sum_batch_size' action Hne Hw).
Qed.

Lemma sum_result_is_sum_of_rows_witness :
  oeq result_eq
      (call ex_bi (3 # 2) [1] [1; 3 # 2; 2] [1 # 2; 1 # 5; 1] true
            (Some [1; 2; 3]) 2%positive "error")
      (r <- call ex_bi (3 # 2) [1] [1; 3 # 2; 2] [1 # 2; 1 # 5; 1] false
                 (Some [1; 2; 3]) 1%positive "error" ;;
       reduce_rows (abscs ex_bi) (Some [1; 2; 3]) r) /\
  oeq result_eq
      (call ex_bi (3 # 2) [1] [1; 3 # 2; 2] [1 # 2; 1 # 5; 1] true
            (Some [1; 2; 3]) 2%positive "error")
      (call ex_bi (3 # 2) [1] [1; 3 # 2; 2] [1 # 2; 1 # 5; 1] true
            (Some [1; 2; 3]) 1%positive "error").
Proof.
  apply (sum_result_is_sum_of_rows ex_bi (3 # 2) [1] [1; 3 # 2; 2]
           [1 # 2; 1 # 5; 1] (Some [1; 2; 3]) 2%positive 1%positive "error").
  - discriminate.
  - intros w [= <-]. reflexivity.
Defined.

(** C6 as stated fails on the empty batch: without summing the call
    returns no row, whose sum is the vector of zeros, and the summing call
    raises, because the batch is split in zero parts. *)
Lemma sum_result_empty_batch_raises :
  call ex_bi (3 # 2) [1] [] [] false None 1%positive "error" = Ret (Rows []) /\
  reduce_rows (abscs ex_bi) None (Rows []) = Ret (Summed (Finite [0])) /\
  call ex_bi (3 # 2) [1] [] [] true None 1%positive "error"
  = Raise ZeroDivisionError.
Proof. repeat split; reflexivity. Qed.

(** ** Grid points: the examples *)

(** C5, at the last grid point: the query [x = xp[2]] is inside the closed
    range of the abscissa, [interp1d] reads [xp[3]], which JAX clamps to
    [xp[2]], divides 0 by 0 and returns NaN instead of [fp[2] = 40];
    [interp2d] does the same on the last line of its first axis, and on
    the last column of the second. *)
Theorem interp_last_grid_point_not_finite :
  v_is_within [nth 2 ex_xp 0] ex_xp = Ret true /\
  left_index ex_xp (nth 2 ex_xp 0) = 2%Z /\
  getitem ex_xp 3 = getitem ex_xp 2 /\
  interp1d ex_fp ex_xp (nth 2 ex_xp 0) = Ret NonFinite /\
  interp2d ex_grid ex_x0p ex_x1p [(nth 1 ex_x0p 0, nth 0 ex_x1p 0)]
  = Ret [NonFinite] /\
  interp2d ex_grid ex_x0p ex_x1p [(nth 0 ex_x0p 0, nth 2 ex_x1p 0)]
  = Ret [NonFinite].
Proof. repeat split; reflexivity. Qed.

Lemma interp1d_grid_witness :
  oeq (feq ceq) (interp1d ex_fp ex_xp (nth 1 ex_xp 0)) (Ret (Finite 20)).
Proof.
  apply (interp1d_grid ex_fp ex_xp 1 20 40).
  - repeat constructor.
  - simpl. lia.
  - reflexivity.
  - reflexivity.
  - exact I.
Defined.

Lemma interp2d_point_grid_witness :
  oeq (feq ceq)
      (interp2d_point ex_grid ex_x0p ex_x1p (nth 0 ex_x0p 0, nth 1 ex_x1p 0))
      (Ret (Finite 2)).
Proof.
  apply (interp2d_point_grid ex_grid ex_x0p ex_x1p 0 1
           [1; 2; 3] [4; 5; 6] 2 3 5 6).
  - repeat constructor.
  - repeat constructor.
  - simpl. lia.
  - simpl. lia.
  - reflexivity.
  - reflexivity.
  - reflexivity.
  - reflexivity.
  - reflexivity.
  - reflexivity.
  - exact I.
  - exact I.
  - exact I.
Defined.
